(** * rosedb [ds/list]: the in-memory list index

    A shallow embedding of [ds/list/list.go] and the properties of its
    operations: push and pop at both ends, positional access, search-based
    insertion and removal, range extraction, trimming and the dump iterator.

    Layout: Go's [int] and [[]byte], then the part of Go's [container/list]
    the index uses, then the index itself (every function of [list.go] under
    its own name), then the lemmas. *)

From Stdlib Require Import ZArith Lia Strings.Byte Strings.String.
From stdpp Require Import base list gmap strings fin_maps.

(** ** Go's [int]

    [int] is taken as the 64-bit two's-complement integer of the usual
    platforms: a value is a [Z] in [[min_int, max_int]] and every arithmetic
    operation of the source wraps around. *)
Module GoInt.
Local Open Scope Z_scope.

Definition min_int : Z := -9223372036854775808.
Definition max_int : Z := 9223372036854775807.
Definition modulus : Z := 18446744073709551616.

Definition in_range (z : Z) : Prop := min_int <= z <= max_int.

(** The representative of [z] in [[min_int, max_int]]. *)
Definition wrap (z : Z) : Z := (z - min_int) mod modulus + min_int.

Definition add (a b : Z) : Z := wrap (a + b).
Definition sub (a b : Z) : Z := wrap (a - b).
Definition neg (a : Z) : Z := wrap (- a).
(** [a >> 1], an arithmetic shift. *)
Definition shr1 (a : Z) : Z := Z.shiftr a 1.
End GoInt.

(** ** Go's [[]byte]

    A slice value is either [nil] or a (possibly empty) run of bytes; both
    [nil] and the empty slice have length 0. *)
Inductive ByteSlice : Type :=
  | nil_bytes
  | mk_bytes (bs : list byte).

Definition data (s : ByteSlice) : list byte :=
  match s with
  | nil_bytes => []
  | mk_bytes bs => bs
  end.

Definition len (s : ByteSlice) : Z := Z.of_nat (length (data s)).

(** [[]byte(s)] and [string(b)]. *)
Definition bytes_of_string (s : string) : ByteSlice :=
  mk_bytes (String.list_byte_of_string s).

Definition string_of_bytes (b : ByteSlice) : string :=
  String.string_of_list_byte (data b).

(** ** Results of code that can panic

    A nil-pointer dereference panics. Functions of the source that
    dereference a pointer which is not checked against [nil] on the spot
    return a [result]. *)
Inductive result (A : Type) : Type :=
  | Ok (a : A)
  | Panic.
Arguments Ok {A} a.
Arguments Panic {A}.

#[global] Instance result_ret : MRet result := λ A a, Ok a.
#[global] Instance result_bind : MBind result := λ A B f m,
  match m with
  | Ok a => f a
  | Panic => Panic
  end.

(** [*p] for a pointer [p], [None] being [nil]. *)
Definition deref {A : Type} (p : option A) : result A :=
  match p with
  | Some a => Ok a
  | None => Panic
  end.

(** ** Go's [container/list]

    A doubly linked list. An element is a heap cell; the model gives every
    cell of one list its own identity [eid] (its address) and keeps the cells
    in head-to-tail order. A [*list.Element] is the cell it points to, [None]
    for [nil]; [Remove], [InsertBefore] and [InsertAfter] find their argument
    by identity, as the pointer operations do. *)
Module clist.
Record Element : Type := mkElement { eid : nat; Value : ByteSlice }.

Record List : Type := mkList { cells : list Element; next_eid : nat }.

Abbreviation ptr := (option Element).

Definition New : List := mkList [] 0.

Definition Len (l : List) : Z := Z.of_nat (length (cells l)).

Definition Front (l : List) : ptr := head (cells l).

Definition Back (l : List) : ptr := last (cells l).

(** The cell that follows the cell [id] in [cs]. *)
Fixpoint after (id : nat) (cs : list Element) : ptr :=
  match cs with
  | [] => None
  | c :: cs' => if decide (eid c = id) then head cs' else after id cs'
  end.

Definition Next (l : List) (e : Element) : ptr := after (eid e) (cells l).

Definition Prev (l : List) (e : Element) : ptr :=
  after (eid e) (reverse (cells l)).

(** [e.list == l] *)
Definition owns (l : List) (e : Element) : bool :=
  bool_decide (eid e ∈ eid <$> cells l).

Definition PushFront (l : List) (v : ByteSlice) : List :=
  mkList (mkElement (next_eid l) v :: cells l) (S (next_eid l)).

Definition PushBack (l : List) (v : ByteSlice) : List :=
  mkList (cells l ++ [mkElement (next_eid l) v]) (S (next_eid l)).

Fixpoint link_before (new : Element) (id : nat) (cs : list Element)
    : list Element :=
  match cs with
  | [] => []
  | c :: cs' =>
      if decide (eid c = id) then new :: c :: cs'
      else c :: link_before new id cs'
  end.

Fixpoint link_after (new : Element) (id : nat) (cs : list Element)
    : list Element :=
  match cs with
  | [] => []
  | c :: cs' =>
      if decide (eid c = id) then c :: new :: cs'
      else c :: link_after new id cs'
  end.

(** [InsertBefore] and [InsertAfter] do nothing when [mark] is not an
    element of [l]. *)
Definition InsertBefore (l : List) (v : ByteSlice) (mark : Element) : List :=
  if owns l mark
  then mkList (link_before (mkElement (next_eid l) v) (eid mark) (cells l))
              (S (next_eid l))
  else l.

Definition InsertAfter (l : List) (v : ByteSlice) (mark : Element) : List :=
  if owns l mark
  then mkList (link_after (mkElement (next_eid l) v) (eid mark) (cells l))
              (S (next_eid l))
  else l.

(** [Remove] unlinks [e] if it is an element of [l]. *)
Definition Remove (l : List) (e : Element) : List :=
  mkList (filter (λ c, eid c ≠ eid e) (cells l)) (next_eid l).

(** [e.Value = v] for the cell [e] of [l]. *)
Definition SetValue (l : List) (e : Element) (v : ByteSlice) : List :=
  mkList ((λ c, if decide (eid c = eid e) then mkElement (eid c) v else c)
            <$> cells l)
         (next_eid l).

(** The values held by the list, head to tail. *)
Definition values (l : List) : list ByteSlice := Value <$> cells l.

(** Cells are distinct heap objects, allocated before [next_eid]. *)
Definition wf (l : List) : Prop :=
  NoDup (eid <$> cells l) ∧ Forall (λ c, eid c < next_eid l) (cells l).

#[global] Instance wf_dec l : Decision (wf l).
Proof. unfold wf. apply _. Defined.
End clist.

(** The loops [for p := l.Front(); p != nil; p = p.Next()] and
    [for p := l.Back(); p != nil; p = p.Prev()] visit the cells of [l] from
    the head and from the tail: [visit_next] and [visit_prev] follow the
    pointers for at most [fuel] steps. On a well-formed list they yield
    [cells l] and [reverse (cells l)], which is what the scans below
    recurse on. *)
Fixpoint visit_next (fuel : nat) (l : clist.List) (p : clist.ptr)
    : list clist.Element :=
  match fuel, p with
  | S fuel', Some e => e :: visit_next fuel' l (clist.Next l e)
  | _, _ => []
  end.

Fixpoint visit_prev (fuel : nat) (l : clist.List) (p : clist.ptr)
    : list clist.Element :=
  match fuel, p with
  | S fuel', Some e => e :: visit_prev fuel' l (clist.Prev l e)
  | _, _ => []
  end.

(** ** The list index of [list.go] *)

Import GoInt.
Local Open Scope Z_scope.

(** [InsertOption] is a [uint8]; [Before] and [After] are its first two
    values. *)
Definition InsertOption : Type := N.
Definition Before : InsertOption := 0%N.
Definition After : InsertOption := 1%N.

(** [Record] of the source: [map[string]*list.List]. An entry holds a
    pointer, which can be [nil] ([None]). *)
Abbreviation RecordMap := (gmap string (option clist.List)).

Record List : Type := mkIndex { record : RecordMap }.

Definition error : Type := string.

(** Modelled from the spec: [storage.Entry] and [storage.NewEntryNoExtra]
    are in the [storage] package, which is not among the sources. The spec
    (section 4.6) gives what a snapshot record carries: the key, the element,
    an operation tag and an extra tag. *)
Record Entry : Type := mkEntry {
  Key : ByteSlice;
  EntryValue : ByteSlice;
  Type_ : Z;
  Mark : Z
}.

Definition NewEntryNoExtra (key value : ByteSlice) (t mark : Z) : Entry :=
  mkEntry key value t mark.

(** [New] *)
Definition New : List := mkIndex ∅.

(** [lis.record[key]]: [nil] for a missing key and for a [nil] entry. *)
Definition at_key (lis : List) (key : string) : option clist.List :=
  default None (record lis !! key).

(** [lis.record[key] = l], and the write-back of a list mutated through its
    pointer. *)
Definition set_key (lis : List) (key : string) (l : option clist.List) : List :=
  mkIndex (<[key := l]> (record lis)).

(** [sliceOfByteIsEqual]: the loop over [i] compares [a[i:]] and [b[i:]]
    byte by byte. *)
Fixpoint bytes_equal_from (a b : list byte) : bool :=
  match a, b with
  | x :: a', y :: b' => if Byte.eqb x y then bytes_equal_from a' b' else false
  | _, _ => true
  end.

Definition sliceOfByteIsEqual (a b : ByteSlice) : bool :=
  let aLen := len a in
  let bLen := len b in
  if aLen =? bLen then bytes_equal_from (data a) (data b) else false.

(** [handleIndex] *)
Definition handleIndex (length start end_ : Z) : Z * Z :=
  let start := if start <? 0 then add start length else start in
  let end_ := if end_ <? 0 then add end_ length else end_ in
  let start := if start <? 0 then 0 else start in
  let end_ := if end_ >=? length then sub length 1 else end_ in
  (start, end_).

(** [validIndex] *)
Definition validIndex (lis : List) (key : string) (index : Z) : bool * Z :=
  match at_key lis key with
  | None => (false, index)
  | Some item =>
      if clist.Len item <=? 0 then (false, index)
      else
        let length := clist.Len item in
        let index := if index <? 0 then add index length else index in
        ((index >=? 0) && (index <? length), index)
  end.

(** [val = val.Next()] and [val = val.Prev()] on a pointer that the source
    does not check. *)
Definition step_next (item : clist.List) (val : clist.ptr) : result clist.ptr :=
  e ← deref val; Ok (clist.Next item e).

Definition step_prev (item : clist.List) (val : clist.ptr) : result clist.ptr :=
  e ← deref val; Ok (clist.Prev item e).

(** [index]. The counting loops [for i := 0; i < index; i++] and
    [for i := Len-1; i > index; i--] run [index] and [Len-1-index] times. *)
Definition index (lis : List) (key : string) (index : Z) : result clist.ptr :=
  let '(ok, newIndex) := validIndex lis key index in
  if negb ok then Ok None
  else
    let index := newIndex in
    match at_key lis key with
    | None => Ok None
    | Some item =>
        if clist.Len item >? 0 then
          if index <=? shr1 (clist.Len item) then
            Nat.iter (Z.to_nat index)
                     (λ val, val ← val; step_next item val)
                     (Ok (clist.Front item))
          else
            Nat.iter (Z.to_nat (sub (clist.Len item) 1 - index))
                     (λ val, val ← val; step_prev item val)
                     (Ok (clist.Back item))
        else Ok None
    end.

(** [find]: the first cell, from the head, whose value equals [val]. *)
Fixpoint find_from (val : ByteSlice) (ps : list clist.Element) : clist.ptr :=
  match ps with
  | [] => None
  | p :: ps' =>
      if sliceOfByteIsEqual (clist.Value p) val then Some p
      else find_from val ps'
  end.

Definition find (lis : List) (key : string) (val : ByteSlice) : clist.ptr :=
  match at_key lis key with
  | Some item => find_from val (clist.cells item)
  | None => None
  end.

(** [push]. The entry is created when missing or [nil], so
    [lis.record[key]] is a list in the loop and at the return. *)
Definition push (front : bool) (lis : List) (key : string)
    (val : list ByteSlice) : List * Z :=
  let item :=
    match at_key lis key with
    | None => clist.New
    | Some item => item
    end in
  let lis := if at_key lis key is None then set_key lis key (Some item)
             else lis in
  let item :=
    fold_left (λ item v,
                 if front then clist.PushFront item v
                 else clist.PushBack item v) val item in
  (set_key lis key (Some item), clist.Len item).

(** [pop] *)
Definition pop (front : bool) (lis : List) (key : string)
    : result (List * ByteSlice) :=
  let val := nil_bytes in
  match at_key lis key with
  | None => Ok (lis, val)
  | Some item =>
      if clist.Len item >? 0 then
        e ← deref (if front then clist.Front item else clist.Back item);
        Ok (set_key lis key (Some (clist.Remove item e)), clist.Value e)
      else Ok (lis, val)
  end.

(** [LPush], [LPop], [RPush], [RPop] *)
Definition LPush (lis : List) (key : string) (val : list ByteSlice) : List * Z :=
  push true lis key val.

Definition LPop (lis : List) (key : string) : result (List * ByteSlice) :=
  pop true lis key.

Definition RPush (lis : List) (key : string) (val : list ByteSlice) : List * Z :=
  push false lis key val.

Definition RPop (lis : List) (key : string) : result (List * ByteSlice) :=
  pop false lis key.

(** [LIndex] *)
Definition LIndex (lis : List) (key : string) (idx : Z) : result ByteSlice :=
  e ← index lis key idx;
  Ok (match e with
      | Some e => clist.Value e
      | None => nil_bytes
      end).

(** [LRem]: the three scans. [scan_all] is the loop for [count == 0];
    [scan_limit] is the loop for [count > 0] over the cells from the head and
    for [count < 0] over the cells from the tail. *)
Fixpoint scan_all (val : ByteSlice) (ps ele : list clist.Element)
    : list clist.Element :=
  match ps with
  | [] => ele
  | p :: ps' =>
      scan_all val ps'
               (if sliceOfByteIsEqual (clist.Value p) val then ele ++ [p]
                else ele)
  end.

Fixpoint scan_limit (val : ByteSlice) (limit : Z) (ps ele : list clist.Element)
    : list clist.Element :=
  match ps with
  | [] => ele
  | p :: ps' =>
      if Z.of_nat (length ele) <? limit then
        scan_limit val limit ps'
                   (if sliceOfByteIsEqual (clist.Value p) val then ele ++ [p]
                    else ele)
      else ele
  end.

Definition LRem (lis : List) (key : string) (val : ByteSlice) (count : Z)
    : List * Z :=
  match at_key lis key with
  | None => (lis, 0)
  | Some item =>
      let ele := [] in
      let ele := if count =? 0 then scan_all val (clist.cells item) ele
                 else ele in
      let ele := if count >? 0 then scan_limit val count (clist.cells item) ele
                 else ele in
      let ele := if count <? 0
                 then scan_limit val (neg count) (reverse (clist.cells item)) ele
                 else ele in
      let item := fold_left clist.Remove ele item in
      (set_key lis key (Some item), Z.of_nat (length ele))
  end.

(** [LInsert] *)
Definition LInsert (lis : List) (key : string) (option : InsertOption)
    (pivot val : ByteSlice) : result (List * Z) :=
  match find lis key pivot with
  | None => Ok (lis, -1)
  | Some e =>
      item ← deref (at_key lis key);
      let item := if (option =? Before)%N then clist.InsertBefore item val e
                  else item in
      let item := if (option =? After)%N then clist.InsertAfter item val e
                  else item in
      Ok (set_key lis key (Some item), clist.Len item)
  end.

(** [LSet]. A cell [e] that [index] returns is a cell of
    [lis.record[key]]; the write [e.Value = val] goes to that list. *)
Definition LSet (lis : List) (key : string) (idx : Z) (val : ByteSlice)
    : result (List * bool) :=
  e ← index lis key idx;
  match e with
  | None => Ok (lis, false)
  | Some e =>
      item ← deref (at_key lis key);
      Ok (set_key lis key (Some (clist.SetValue item e val)), true)
  end.

(** [LRange]: the scan from the head, the scan from the tail, and the loop
    that reverses [val] in place by swapping [val[i]] and [val[j]]. *)
Fixpoint range_forward (ps : list clist.Element) (flag start end_ : Z)
    (val : list ByteSlice) : list ByteSlice :=
  match ps with
  | [] => val
  | p :: ps' =>
      if flag <=? end_ then
        range_forward ps' (add flag 1) start end_
                      (if flag >=? start then val ++ [clist.Value p] else val)
      else val
  end.

Fixpoint range_backward (ps : list clist.Element) (flag start end_ : Z)
    (val : list ByteSlice) : list ByteSlice :=
  match ps with
  | [] => val
  | p :: ps' =>
      if flag >=? start then
        range_backward ps' (sub flag 1) start end_
                       (if flag <=? end_ then val ++ [clist.Value p] else val)
      else val
  end.

(** [fuel] bounds the number of swaps; the length of [val] is enough. An
    index outside [val] cannot occur between [0] and [len(val)-1]. *)
Fixpoint swap_ends (fuel : nat) (i j : Z) (val : list ByteSlice)
    : list ByteSlice :=
  match fuel with
  | O => val
  | S fuel' =>
      if i <? j then
        match val !! Z.to_nat i, val !! Z.to_nat j with
        | Some x, Some y =>
            swap_ends fuel' (add i 1) (sub j 1)
                      (<[Z.to_nat j := x]> (<[Z.to_nat i := y]> val))
        | _, _ => val
        end
      else val
  end.

Definition LRange (lis : List) (key : string) (start end_ : Z)
    : list ByteSlice :=
  let val := [] in
  match at_key lis key with
  | None => val
  | Some item =>
      if clist.Len item <=? 0 then val
      else
        let length_ := clist.Len item in
        let '(start, end_) := handleIndex length_ start end_ in
        if (start >? end_) || (start >=? length_) then val
        else
          let mid := shr1 length_ in
          if (end_ <=? mid) || (sub end_ mid <? sub mid start) then
            let flag := 0 in
            range_forward (clist.cells item) flag start end_ val
          else
            let flag := sub length_ 1 in
            let val :=
              range_backward (reverse (clist.cells item)) flag start end_ val in
            if Z.of_nat (length val) >? 0
            then swap_ends (length val) 0 (sub (Z.of_nat (length val)) 1) val
            else val
  end.

(** Pointer comparison [p == q]. *)
Definition ptr_eq (p q : clist.ptr) : bool :=
  match p, q with
  | None, None => true
  | Some a, Some b => bool_decide (clist.eid a = clist.eid b)
  | _, _ => false
  end.

(** The cells reached from [p] by [Next], [p] included. *)
Fixpoint chain_from_id (id : nat) (cs : list clist.Element)
    : list clist.Element :=
  match cs with
  | [] => []
  | c :: cs' => if decide (clist.eid c = id) then c :: cs'
                else chain_from_id id cs'
  end.

Definition chain_from (p : clist.ptr) (cs : list clist.Element)
    : list clist.Element :=
  match p with
  | None => []
  | Some e => chain_from_id (clist.eid e) cs
  end.

(** [LTrim], first strategy: [for p := startEle; p != endEle.Next(); ...]
    copies the values into [newList]. [ps] is the chain from [startEle] and
    [stop] is [endEle.Next()]. When [p] runs off the list before it meets
    [stop], [p.Value] dereferences [nil]. *)
Fixpoint copy_until (stop : clist.ptr) (ps : list clist.Element)
    (newList : clist.List) : result clist.List :=
  match ps with
  | [] => if ptr_eq None stop then Ok newList else Panic
  | p :: ps' =>
      if ptr_eq (Some p) stop then Ok newList
      else copy_until stop ps' (clist.PushBack newList (clist.Value p))
  end.

(** [LTrim], second strategy: [for p := item.Front(); p != startEle; ...]
    and [for p := item.Back(); p != endEle; ...] collect the cells to
    remove. *)
Fixpoint collect_until (stop : clist.ptr) (ps ele : list clist.Element)
    : result (list clist.Element) :=
  match ps with
  | [] => if ptr_eq None stop then Ok ele else Panic
  | p :: ps' =>
      if ptr_eq (Some p) stop then Ok ele
      else collect_until stop ps' (ele ++ [p])
  end.

Definition trim_rebuild (item : clist.List) (startEle endEle : clist.ptr)
    : result clist.List :=
  e ← deref endEle;
  copy_until (clist.Next item e) (chain_from startEle (clist.cells item))
             clist.New.

Definition trim_in_place (item : clist.List) (startEle endEle : clist.ptr)
    : result clist.List :=
  ele ← collect_until startEle (clist.cells item) [];
  ele ← collect_until endEle (reverse (clist.cells item)) ele;
  Ok (fold_left clist.Remove ele item).

(** [LTrim]. [newValuesMap] is written and never read; it is left out. *)
Definition LTrim (lis : List) (key : string) (start end_ : Z)
    : result (List * bool) :=
  match at_key lis key with
  | None => Ok (lis, false)
  | Some item =>
      if clist.Len item <=? 0 then Ok (lis, false)
      else
        let length_ := clist.Len item in
        let '(start, end_) := handleIndex length_ start end_ in
        if (start <=? 0) && (end_ >=? sub length_ 1) then Ok (lis, false)
        else if (start >? end_) || (start >=? length_)
        then Ok (set_key lis key None, true)
        else
          startEle ← index lis key start;
          endEle ← index lis key end_;
          if add (sub end_ start) 1 <? shr1 length_ then
            newList ← trim_rebuild item startEle endEle;
            Ok (set_key lis key (Some newList), true)
          else
            item ← trim_in_place item startEle endEle;
            Ok (set_key lis key (Some item), true)
  end.

(** [LLen], [LClear], [LKeyExists] *)
Definition LLen (lis : List) (key : string) : Z :=
  let length_ := 0 in
  match at_key lis key with
  | Some item => clist.Len item
  | None => length_
  end.

Definition LClear (lis : List) (key : string) : List :=
  mkIndex (delete key (record lis)).

Definition LKeyExists (lis : List) (key : string) : bool :=
  bool_decide (is_Some (record lis !! key)).

(** [DumpIterate]. The callback [fn] acts on a state [H] of the caller and
    returns its error, [None] for [nil]. The inner loop visits the cells of
    one list; the outer loop visits the entries of the map in the order
    [entries], and [l.Front()] on a [nil] list dereferences [nil]. *)
Fixpoint dump_list {H : Type} (fn : Entry → H → H * option error)
    (listKey : ByteSlice) (ps : list clist.Element) (h : H)
    : H * option error :=
  match ps with
  | [] => (h, None)
  | e :: ps' =>
      let value := clist.Value e in
      let ent := NewEntryNoExtra listKey value 1 1 in
      let '(h, err) := fn ent h in
      if err is Some _ then (h, err) else dump_list fn listKey ps' h
  end.

Fixpoint dump_entries {H : Type} (fn : Entry → H → H * option error)
    (entries : list (string * option clist.List)) (h : H)
    : result (H * option error) :=
  match entries with
  | [] => Ok (h, None)
  | (key, l) :: entries' =>
      let listKey := bytes_of_string key in
      l ← deref l;
      let '(h, err) := dump_list fn listKey (clist.cells l) h in
      if err is Some _ then Ok (h, err) else dump_entries fn entries' h
  end.

(** Go leaves the order of a [range] over a map open: [DumpIterate] relates
    the index to the outcome of every order of its entries. *)
Definition DumpIterate {H : Type} (lis : List)
    (fn : Entry → H → H * option error) (h : H)
    (out : result (H * option error)) : Prop :=
  ∃ entries, entries ≡ₚ map_to_list (record lis) ∧
             dump_entries fn entries h = out.

(** ** Notions the properties are stated with *)

(** The logical list of a key: its elements from head to tail, empty for a
    missing key and for a [nil] entry. *)
Definition elements (lis : List) (key : string) : list ByteSlice :=
  match at_key lis key with
  | Some item => clist.values item
  | None => []
  end.

(** Every list of the index is a well-formed linked list. *)
Definition wf (lis : List) : Prop :=
  map_Forall (λ _ l, from_option clist.wf True l) (record lis).

#[global] Instance wf_dec lis : Decision (wf lis).
Proof.
  unfold wf. apply map_Forall_dec. intros _ [l|]; simpl; apply _.
Defined.

(** No entry of the index is [nil]. *)
Definition no_nil_entry (lis : List) : Prop :=
  map_Forall (λ _ (l : option clist.List), is_Some l) (record lis).

(** Normalisation of a range as the specification words it: a negative
    bound is offset by the length, then [start] is floored to 0 and [end] is
    capped to [length - 1]. *)
Definition norm_start (length_ start : Z) : Z :=
  Z.max 0 (if start <? 0 then start + length_ else start).

Definition norm_end (length_ end_ : Z) : Z :=
  Z.min (length_ - 1) (if end_ <? 0 then end_ + length_ else end_).

(** The elements of [l] at positions [start..end_]. *)
Definition slice_of {A : Type} (l : list A) (start end_ : Z) : list A :=
  take (Z.to_nat (end_ + 1 - start)) (drop (Z.to_nat start) l).

(** Removal of the first [n] elements equal to [v], from the head, and of
    the last [n], from the tail. *)
Fixpoint remove_first (n : nat) (v : ByteSlice) (l : list ByteSlice)
    : list ByteSlice :=
  match l with
  | [] => []
  | x :: l' =>
      match n with
      | O => x :: l'
      | S n' =>
          if sliceOfByteIsEqual x v then remove_first n' v l'
          else x :: remove_first n v l'
      end
  end.

Definition remove_last (n : nat) (v : ByteSlice) (l : list ByteSlice)
    : list ByteSlice :=
  reverse (remove_first n v (reverse l)).

(** The number of elements of [l] equal to [v]. *)
Definition occurrences (v : ByteSlice) (l : list ByteSlice) : nat :=
  length (filter (λ x, sliceOfByteIsEqual x v = true) l).

(** Replaying one snapshot record as a tail push. *)
Definition replay (e : Entry) (idx : List) : List * option error :=
  ((RPush idx (string_of_bytes (Key e)) [EntryValue e]).1, None).

(** ** Sample indexes

    Small indexes on which the statements below are instantiated. *)

Definition abc : List :=
  (RPush New "k" [bytes_of_string "a"; bytes_of_string "b";
                  bytes_of_string "c"]).1.

Definition one : List := (RPush New "k" [bytes_of_string "a"]).1.

(** The index left by [RPush("k", "a", "b", "c")] and [LTrim("k", 2, 1)]:
    the entry of "k" is [nil]. *)
Definition emptied : List := mkIndex (<["k" := None]> ∅).

(** The indexes the operations can produce from a new one. *)
Inductive reachable : List → Prop :=
  | reachable_New : reachable New
  | reachable_push front lis key val :
      reachable lis → reachable (push front lis key val).1
  | reachable_pop front lis key lis' v :
      reachable lis → pop front lis key = Ok (lis', v) → reachable lis'
  | reachable_LRem lis key val count :
      reachable lis → reachable (LRem lis key val count).1
  | reachable_LInsert lis key option pivot val lis' n :
      reachable lis → LInsert lis key option pivot val = Ok (lis', n) →
      reachable lis'
  | reachable_LSet lis key idx val lis' ok :
      reachable lis → LSet lis key idx val = Ok (lis', ok) → reachable lis'
  | reachable_LTrim lis key start end_ lis' changed :
      reachable lis → LTrim lis key start end_ = Ok (lis', changed) →
      reachable lis'
  | reachable_LClear lis key :
      reachable lis → reachable (LClear lis key).

Definition two_keys : List :=
  (RPush abc "j" [bytes_of_string "x"; bytes_of_string "y"]).1.

(** The records [DumpIterate] hands to its callback for the entries in the
    order [entries]: for each key the elements of its list from head to
    tail, each with the two tags 1 and 1. *)
Definition records_of (entries : list (string * option clist.List))
    : list Entry :=
  entries ≫= λ kl,
    match kl.2 with
    | Some l =>
        (λ v, NewEntryNoExtra (bytes_of_string kl.1) v 1 1) <$> clist.values l
    | None => []
    end.

(** Calling [fn] on the records in turn, up to the first error. *)
Fixpoint visit_all {H : Type} (fn : Entry → H → H * option error)
    (recs : list Entry) (h : H) : H * option error :=
  match recs with
  | [] => (h, None)
  | r :: recs' =>
      let '(h', err) := fn r h in
      if err is Some _ then (h', err) else visit_all fn recs' h'
  end.

(** A callback that counts the records it sees and fails on the value
    "b". *)
Definition stop_at_b (e : Entry) (n : nat) : nat * option error :=
  (S n, if sliceOfByteIsEqual (EntryValue e) (bytes_of_string "b")
        then Some "stop"%string else None).

(** * Properties *)

(** ** Go's [int] *)

Lemma wrap_small (z : Z) : in_range z → wrap z = z.
Proof.
  unfold in_range, wrap, min_int, max_int, modulus. intros Hz.
  rewrite Z.mod_small; lia.
Qed.

Lemma wrap_in_range (z : Z) : in_range (wrap z).
Proof.
  unfold in_range, wrap, min_int, max_int, modulus.
  pose proof (Z.mod_pos_bound (z - -9223372036854775808) 18446744073709551616).
  lia.
Qed.

Lemma neg_min_int : neg min_int = min_int.
Proof. reflexivity. Qed.

Lemma shr1_half (a : Z) : shr1 a = a / 2.
Proof. unfold shr1. rewrite Z.shiftr_div_pow2 by lia. reflexivity. Qed.

Lemma Byte_eqb_eq (x y : byte) : Byte.eqb x y = true ↔ x = y.
Proof.
  split.
  - apply Byte.byte_dec_bl.
  - apply Byte.byte_dec_lb.
Qed.

Lemma bytes_equal_from_spec (a b : list byte) :
  length a = length b → bytes_equal_from a b = true ↔ a = b.
Proof.
  revert b. induction a as [|x a IH]; intros [|y b] Hlen; simpl in *;
    try discriminate; [tauto|].
  destruct (Byte.eqb x y) eqn:E.
  - apply Byte_eqb_eq in E as ->. rewrite IH by lia.
    split; intros; simplify_eq; done.
  - split; [done|]. intros [= -> _]. 
    assert (Byte.eqb y y = true) by (by apply Byte_eqb_eq). congruence.
Qed.

Lemma sliceOfByteIsEqual_spec (a b : ByteSlice) :
  sliceOfByteIsEqual a b = true ↔ data a = data b.
Proof.
  unfold sliceOfByteIsEqual, len.
  destruct (Z.eqb_spec (Z.of_nat (length (data a))) (Z.of_nat (length (data b))))
    as [E|E].
  - apply bytes_equal_from_spec. lia.
  - split; [done|]. intros E'. rewrite E' in E. done.
Qed.

(** ** Go's [container/list] *)

Section clist_facts.
Import clist.
Implicit Types (l : clist.List) (e c : Element) (cs : list Element).

Lemma wf_New : clist.wf clist.New.
Proof. split; simpl; constructor. Qed.

Lemma Len_values l : Len l = Z.of_nat (length (values l)).
Proof. unfold Len, values. by rewrite length_fmap. Qed.

Lemma eid_fresh l c : clist.wf l → c ∈ cells l → eid c ≠ next_eid l.
Proof.
  intros [_ Hlt] Hc. rewrite Forall_forall in Hlt. specialize (Hlt c Hc).
  simpl in Hlt. lia.
Qed.

Lemma next_eid_not_in l : clist.wf l → next_eid l ∉ eid <$> cells l.
Proof.
  intros Hwf [c [Hc Hin]]%list_elem_of_fmap.
  by apply (eid_fresh l c).
Qed.

Lemma wf_PushFront l v : clist.wf l → clist.wf (PushFront l v).
Proof.
  intros Hwf. pose proof (next_eid_not_in l Hwf) as Hfresh.
  destruct Hwf as [Hnd Hlt]. split; simpl.
  - by constructor.
  - constructor; [simpl; lia|].
    eapply Forall_impl; [exact Hlt|]. simpl. intros; lia.
Qed.

Lemma wf_PushBack l v : clist.wf l → clist.wf (PushBack l v).
Proof.
  intros Hwf. pose proof (next_eid_not_in l Hwf) as Hfresh.
  destruct Hwf as [Hnd Hlt]. split; simpl.
  - rewrite fmap_app. apply NoDup_app. split_and!; [done| |].
    + intros x Hx Hx'. apply list_elem_of_singleton in Hx'. by subst.
    + apply NoDup_singleton.
  - apply Forall_app. split.
    + eapply Forall_impl; [exact Hlt|]. simpl. intros; lia.
    + repeat constructor.
Qed.

Lemma values_PushFront l v : values (PushFront l v) = v :: values l.
Proof. reflexivity. Qed.

Lemma values_PushBack l v : values (PushBack l v) = values l ++ [v].
Proof. unfold values. simpl. by rewrite fmap_app. Qed.

Lemma wf_filter l (P : Element → Prop) `{!∀ c, Decision (P c)} :
  clist.wf l → clist.wf (mkList (filter P (cells l)) (next_eid l)).
Proof.
  intros [Hnd Hlt]. split; simpl.
  - eapply sublist_NoDup; [exact Hnd|].
    apply fmap_sublist, sublist_filter.
  - rewrite Forall_forall in Hlt. apply Forall_forall.
    intros c [_ Hc]%list_elem_of_filter. by apply Hlt.
Qed.

Lemma wf_Remove l e : clist.wf l → clist.wf (Remove l e).
Proof. apply wf_filter. Qed.

Lemma cells_fold_Remove (ele : list Element) l :
  cells (fold_left Remove ele l)
  = filter (λ c, eid c ∉ eid <$> ele) (cells l)
  ∧ next_eid (fold_left Remove ele l) = next_eid l.
Proof.
  revert l. induction ele as [|e ele IH]; intros l; simpl.
  - split; [|done]. symmetry. induction (cells l) as [|c cs IHcs]; [done|].
    rewrite filter_cons_True; [by f_equal|]. apply not_elem_of_nil.
  - destruct (IH (Remove l e)) as [-> ->]. split; [|done]. simpl.
    rewrite list_filter_filter. apply list_filter_iff. intros c.
    rewrite not_elem_of_cons. tauto.
Qed.

Lemma wf_fold_Remove (ele : list Element) l :
  clist.wf l → clist.wf (fold_left Remove ele l).
Proof.
  revert l. induction ele as [|e ele IH]; intros l Hwf; simpl; [done|].
  by apply IH, wf_Remove.
Qed.

(** [Next] and [Prev] walk the cells in order. *)
Lemma after_lookup cs (i : nat) e :
  NoDup (eid <$> cs) → cs !! i = Some e → after (eid e) cs = cs !! S i.
Proof.
  revert i. induction cs as [|c cs IH]; intros i Hnd Hi; [done|].
  rewrite fmap_cons in Hnd. apply NoDup_cons in Hnd as [Hc Hnd]. simpl.
  destruct i as [|i]; simpl in Hi.
  - injection Hi as ->. rewrite decide_True by done. apply head_lookup.
  - rewrite decide_False; [by apply IH|].
    intros Heq. apply Hc. rewrite Heq.
    apply list_elem_of_fmap. exists e. split; [done|].
    by eapply list_elem_of_lookup_2.
Qed.

Lemma Next_lookup l (i : nat) e :
  clist.wf l → cells l !! i = Some e → Next l e = cells l !! S i.
Proof. intros [Hnd _]. by apply after_lookup. Qed.

Lemma Prev_lookup l (i : nat) e :
  clist.wf l → cells l !! S i = Some e → Prev l e = cells l !! i.
Proof.
  intros [Hnd _] Hi. unfold Prev.
  pose proof (lookup_lt_Some _ _ _ Hi) as Hlt.
  rewrite (after_lookup _ (length (cells l) - S (S i))%nat).
  - rewrite reverse_lookup by lia. f_equal. lia.
  - by rewrite fmap_reverse, reverse_Permutation.
  - rewrite reverse_lookup by lia. rewrite <- Hi. f_equal. lia.
Qed.

Lemma Prev_first l e :
  clist.wf l → cells l !! 0%nat = Some e → Prev l e = None.
Proof.
  intros [Hnd _] Hi. unfold Prev.
  pose proof (lookup_lt_Some _ _ _ Hi) as Hlt.
  rewrite (after_lookup _ (length (cells l) - 1)%nat).
  - apply lookup_ge_None. rewrite length_reverse. lia.
  - by rewrite fmap_reverse, reverse_Permutation.
  - rewrite reverse_lookup by lia. rewrite <- Hi. f_equal. lia.
Qed.

End clist_facts.

(** ** Pointer chasing visits the cells in order *)

Lemma visit_next_from (l : clist.List) (fuel i : nat) :
  clist.wf l → (length (clist.cells l) <= i + fuel)%nat →
  visit_next fuel l (clist.cells l !! i) = drop i (clist.cells l).
Proof.
  intros Hwf. revert i. induction fuel as [|fuel IH]; intros i Hlen.
  - simpl. rewrite drop_ge by lia. done.
  - destruct (clist.cells l !! i) as [e|] eqn:He; simpl.
    + rewrite (Next_lookup l i) by done. rewrite IH by lia.
      symmetry. by apply drop_S.
    + apply lookup_ge_None in He. by rewrite drop_ge.
Qed.

Lemma visit_next_cells (l : clist.List) :
  clist.wf l →
  visit_next (length (clist.cells l)) l (clist.Front l) = clist.cells l.
Proof.
  intros Hwf. unfold clist.Front. rewrite head_lookup.
  rewrite visit_next_from by (done || lia). apply drop_0.
Qed.

Lemma visit_prev_from (l : clist.List) (fuel i : nat) :
  clist.wf l → (i < length (clist.cells l))%nat → (i < fuel)%nat →
  visit_prev fuel l (clist.cells l !! i) = reverse (take (S i) (clist.cells l)).
Proof.
  intros Hwf. revert fuel. induction i as [|i IH]; intros fuel Hi Hfuel.
  - destruct fuel as [|fuel]; [lia|].
    destruct (lookup_lt_is_Some_2 (clist.cells l) 0) as [e He]; [done|].
    rewrite He. simpl. rewrite (Prev_first l e) by done.
    destruct (clist.cells l); simplify_eq/=. by destruct fuel.
  - destruct fuel as [|fuel]; [lia|].
    destruct (lookup_lt_is_Some_2 (clist.cells l) (S i)) as [e He]; [done|].
    rewrite He. simpl. rewrite (Prev_lookup l i) by done.
    rewrite IH by lia. rewrite (take_S_r _ (S i) e) by done.
    by rewrite reverse_snoc.
Qed.

Lemma visit_prev_cells (l : clist.List) :
  clist.wf l →
  visit_prev (length (clist.cells l)) l (clist.Back l)
  = reverse (clist.cells l).
Proof.
  intros Hwf. unfold clist.Back. rewrite last_lookup.
  destruct (clist.cells l) as [|c cs] eqn:Hcells; [done|].
  rewrite <- Hcells.
  rewrite visit_prev_from by (done || rewrite Hcells; simpl; lia).
  f_equal. rewrite Hcells. simpl. f_equal. apply take_ge. lia.
Qed.

(** ** The map of the index *)

Lemma at_key_Some (lis : List) key item :
  at_key lis key = Some item ↔ record lis !! key = Some (Some item).
Proof.
  unfold at_key. destruct (record lis !! key) as [[l|]|]; simpl;
    split; intros; simplify_eq; done.
Qed.

Lemma at_key_set_key (lis : List) key v : at_key (set_key lis key v) key = v.
Proof. unfold at_key, set_key. simpl. by rewrite lookup_insert_eq. Qed.

Lemma at_key_set_key_ne (lis : List) key key' v :
  key ≠ key' → at_key (set_key lis key v) key' = at_key lis key'.
Proof.
  intros Hne. unfold at_key, set_key. simpl. by rewrite lookup_insert_ne.
Qed.

Lemma record_set_key_ne (lis : List) key key' v :
  key ≠ key' → record (set_key lis key v) !! key' = record lis !! key'.
Proof. intros Hne. unfold set_key. simpl. by rewrite lookup_insert_ne. Qed.

Lemma set_key_same (lis : List) key item :
  at_key lis key = Some item → set_key lis key (Some item) = lis.
Proof.
  intros H%at_key_Some. destruct lis as [r]. unfold set_key. simpl in *.
  f_equal. by apply insert_id.
Qed.

Lemma LKeyExists_set_key (lis : List) key v :
  LKeyExists (set_key lis key v) key = true.
Proof.
  unfold LKeyExists, set_key. simpl. rewrite lookup_insert_eq.
  by apply bool_decide_eq_true_2.
Qed.

Lemma elements_set_key (lis : List) key item :
  elements (set_key lis key (Some item)) key = clist.values item.
Proof. unfold elements. by rewrite at_key_set_key. Qed.

Lemma elements_set_key_ne (lis : List) key key' v :
  key ≠ key' → elements (set_key lis key v) key' = elements lis key'.
Proof. intros Hne. unfold elements. by rewrite at_key_set_key_ne. Qed.

Lemma LLen_elements (lis : List) key :
  LLen lis key = Z.of_nat (length (elements lis key)).
Proof.
  unfold LLen, elements. destruct (at_key lis key); [|done].
  apply Len_values.
Qed.

Lemma wf_New_index : wf New.
Proof. unfold wf, New. simpl. apply map_Forall_empty. Qed.

Lemma wf_at_key (lis : List) key item :
  wf lis → at_key lis key = Some item → clist.wf item.
Proof. intros Hwf H%at_key_Some. exact (Hwf _ _ H). Qed.

Lemma wf_set_key (lis : List) key item :
  wf lis → clist.wf item → wf (set_key lis key (Some item)).
Proof. intros Hwf Hitem. unfold wf, set_key. simpl. by apply map_Forall_insert_2. Qed.

Lemma wf_set_key_nil (lis : List) key : wf lis → wf (set_key lis key None).
Proof. intros Hwf. unfold wf, set_key. simpl. by apply map_Forall_insert_2. Qed.

(** ** Positional access: [validIndex], [index], [LIndex] *)

Section index_facts.
Context (lis : List) (key : string) (item : clist.List).
Context (Hwf : wf lis) (Hitem : at_key lis key = Some item).
Context (Hlen : clist.Len item <= max_int).
Import clist.

Lemma walk_next (n : nat) :
  (n < length (cells item))%nat →
  Nat.iter n (λ val, val ← val; step_next item val) (Ok (Front item))
  = Ok (cells item !! n).
Proof.
  pose proof (wf_at_key _ _ _ Hwf Hitem) as Hl.
  induction n as [|n IH]; intros Hn; simpl.
  - unfold Front. by rewrite head_lookup.
  - rewrite IH by lia. simpl.
    destruct (lookup_lt_is_Some_2 (cells item) n) as [e He]; [lia|].
    rewrite He. unfold step_next. simpl. f_equal. by apply (Next_lookup item n).
Qed.

Lemma walk_prev (n : nat) :
  (n < length (cells item))%nat →
  Nat.iter n (λ val, val ← val; step_prev item val) (Ok (Back item))
  = Ok (cells item !! (length (cells item) - 1 - n)%nat).
Proof.
  pose proof (wf_at_key _ _ _ Hwf Hitem) as Hl.
  induction n as [|n IH]; intros Hn; simpl.
  - unfold Back. rewrite last_lookup. do 2 f_equal. lia.
  - rewrite IH by lia. simpl.
    destruct (lookup_lt_is_Some_2 (cells item)
                (length (cells item) - 1 - n)%nat) as [e He]; [lia|].
    rewrite He. unfold step_prev. simpl. f_equal.
    replace (length (cells item) - 1 - n)%nat
      with (S (length (cells item) - 1 - S n)) in He by lia.
    by apply Prev_lookup.
Qed.

(** [index] reaches the cell at a valid absolute offset, from either end. *)
Lemma index_absolute (i : Z) :
  0 <= i < Len item → index lis key i = Ok (cells item !! Z.to_nat i).
Proof.
  intros Hi. unfold index, validIndex. rewrite Hitem.
  unfold Len in *.
  destruct (Z.leb_spec (Z.of_nat (length (cells item))) 0); [lia|].
  destruct (Z.ltb_spec i 0); [lia|].
  destruct (Z.geb_spec i 0); [|lia].
  destruct (Z.ltb_spec i (Z.of_nat (length (cells item)))); [|lia]. simpl.
  destruct (Z.gtb_spec (Z.of_nat (length (cells item))) 0); [|lia].
  destruct (Z.leb_spec i (shr1 (Z.of_nat (length (cells item))))).
  - apply walk_next. lia.
  - unfold sub. rewrite wrap_small by (unfold in_range, min_int, max_int in *; lia).
    rewrite walk_prev by lia. do 2 f_equal. lia.
Qed.

Lemma index_negative (i : Z) :
  in_range i → i < 0 → 0 <= i + Len item →
  index lis key i = Ok (cells item !! Z.to_nat (i + Len item)).
Proof.
  intros Hr Hneg Hi. rewrite <- index_absolute by lia.
  unfold index, validIndex. rewrite Hitem.
  unfold Len in *.
  destruct (Z.leb_spec (Z.of_nat (length (cells item))) 0); [lia|].
  destruct (Z.ltb_spec i 0); [|lia].
  destruct (Z.ltb_spec (i + Z.of_nat (length (cells item))) 0); [lia|].
  unfold add. rewrite wrap_small by (unfold in_range, min_int, max_int in *; lia).
  done.
Qed.

Lemma index_outside (i : Z) :
  in_range i →
  ¬ (0 <= (if i <? 0 then i + Len item else i) < Len item) →
  index lis key i = Ok None.
Proof.
  intros Hr Hout. unfold index, validIndex. rewrite Hitem.
  unfold Len in *.
  destruct (Z.leb_spec (Z.of_nat (length (cells item))) 0); [done|].
  unfold add.
  destruct (Z.ltb_spec i 0).
  - rewrite wrap_small by (unfold in_range, min_int, max_int in *; lia).
    destruct (Z.geb_spec (i + Z.of_nat (length (cells item))) 0);
      destruct (Z.ltb_spec (i + Z.of_nat (length (cells item)))
                           (Z.of_nat (length (cells item)))); simpl; try done.
    lia.
  - destruct (Z.geb_spec i 0);
      destruct (Z.ltb_spec i (Z.of_nat (length (cells item)))); simpl; try done.
    lia.
Qed.

End index_facts.

Lemma index_no_list (lis : List) key (i : Z) :
  at_key lis key = None → index lis key i = Ok None.
Proof. intros H. unfold index, validIndex. by rewrite H. Qed.

(** C6. For a key whose list has length [L]: an index [i] with [0 <= i < L]
    and the index [i - L] make [LIndex] return the same element, the one at
    position [i]; an index whose absolute offset (a negative index is offset
    by [L]) is outside [[0, L)] makes [LIndex] return the empty sentinel
    [nil]. *)
Theorem LIndex_aliasing (lis : List) (key : string) :
  wf lis → LLen lis key <= max_int →
  (∀ i, 0 <= i < LLen lis key →
        ∃ x, elements lis key !! Z.to_nat i = Some x ∧
             LIndex lis key i = Ok x ∧
             LIndex lis key (i - LLen lis key) = Ok x) ∧
  (∀ j, in_range j →
        ¬ (0 <= (if j <? 0 then j + LLen lis key else j) < LLen lis key) →
        LIndex lis key j = Ok nil_bytes).
Proof.
  intros Hwf Hmax. unfold LLen, elements, LIndex in *.
  destruct (at_key lis key) as [item|] eqn:Hitem.
  - split.
    + intros i Hi.
      destruct (lookup_lt_is_Some_2 (clist.cells item) (Z.to_nat i))
        as [e He]; [unfold clist.Len in Hi; lia|].
      exists (clist.Value e). split_and!.
      * unfold clist.values. by rewrite list_lookup_fmap, He.
      * rewrite (index_absolute lis key item) by done. by rewrite He.
      * rewrite (index_negative lis key item); try done.
        -- replace (i - clist.Len item + clist.Len item) with i by lia.
           by rewrite He.
        -- unfold in_range, min_int, max_int in *. unfold clist.Len in *. lia.
        -- lia.
        -- lia.
    + intros j Hj Hout. by rewrite (index_outside lis key item).
  - split; [intros; lia|]. intros j _ _. by rewrite index_no_list.
Qed.

Lemma LIndex_aliasing_witness :
  (∃ x, elements abc "k" !! Z.to_nat 1 = Some x ∧
        LIndex abc "k" 1 = Ok x ∧
        LIndex abc "k" (1 - LLen abc "k") = Ok x) ∧
  LIndex abc "k" 7 = Ok nil_bytes.
Proof.
  assert (wf abc) as Hwf by (apply (bool_decide_unpack _); vm_compute; exact I).
  assert (LLen abc "k" <= max_int) as Hmax by (vm_compute; discriminate).
  destruct (LIndex_aliasing abc "k" Hwf Hmax) as [Hin Hout]. split.
  - apply (Hin 1). vm_compute. split; [discriminate|reflexivity].
  - apply (Hout 7).
    + vm_compute. split; discriminate.
    + vm_compute. intros [_ H]. discriminate H.
Defined.

(** ** Range normalisation: [handleIndex] *)

Lemma handleIndex_norm (length_ start end_ : Z) :
  in_range start → in_range end_ → 0 <= length_ <= max_int →
  handleIndex length_ start end_
  = (norm_start length_ start, norm_end length_ end_).
Proof.
  unfold in_range, min_int, max_int. intros Hs He Hl.
  unfold handleIndex, norm_start, norm_end, add, sub.
  destruct (Z.ltb_spec start 0); destruct (Z.ltb_spec end_ 0);
    rewrite ?wrap_small by (unfold in_range, min_int, max_int; lia);
    repeat match goal with
           | |- context [Z.ltb ?a ?b] => destruct (Z.ltb_spec a b)
           | |- context [Z.geb ?a ?b] => destruct (Z.geb_spec a b)
           end;
    rewrite ?wrap_small by (unfold in_range, min_int, max_int; lia);
    f_equal; lia.
Qed.

Lemma norm_start_bounds (length_ start : Z) : 0 <= norm_start length_ start.
Proof. unfold norm_start. lia. Qed.

Lemma norm_end_bounds (length_ end_ : Z) : norm_end length_ end_ <= length_ - 1.
Proof. unfold norm_end. lia. Qed.

(** ** Trimming to nothing, clearing, popping, pushing nothing *)

Lemma LKeyExists_LClear (lis : List) key : LKeyExists (LClear lis key) key = false.
Proof.
  unfold LKeyExists, LClear. simpl. rewrite lookup_delete_eq.
  apply bool_decide_eq_false_2. by intros [? ?].
Qed.

(** C2. For a key whose list is non-empty: when the normalised range is
    empty or out of bounds ([start > end] or [start >= length]), [LTrim]
    returns [true], the entry of the key becomes [nil] and stays in the map,
    so [LLen] is 0 and [LKeyExists] is still [true]; after [LClear],
    [LKeyExists] is [false]. *)
Theorem LTrim_to_empty_keeps_key (lis : List) (key : string) (start end_ : Z) :
  in_range start → in_range end_ →
  0 < LLen lis key <= max_int →
  (norm_start (LLen lis key) start > norm_end (LLen lis key) end_ ∨
   norm_start (LLen lis key) start >= LLen lis key) →
  ∃ lis', LTrim lis key start end_ = Ok (lis', true) ∧
          record lis' !! key = Some None ∧
          LLen lis' key = 0 ∧
          LKeyExists lis' key = true ∧
          LKeyExists (LClear lis key) key = false.
Proof.
  intros Hs He Hlen Hrange. unfold LLen in Hlen, Hrange. unfold LTrim.
  destruct (at_key lis key) as [item|] eqn:Hitem; [|lia].
  destruct (Z.leb_spec (clist.Len item) 0); [lia|].
  rewrite handleIndex_norm by (try done; lia).
  pose proof (norm_start_bounds (clist.Len item) start).
  pose proof (norm_end_bounds (clist.Len item) end_).
  unfold sub. rewrite wrap_small by (unfold in_range, min_int, max_int in *; lia).
  set (s := norm_start (clist.Len item) start) in *.
  set (e := norm_end (clist.Len item) end_) in *.
  destruct (Z.leb_spec s 0); destruct (Z.geb_spec e (clist.Len item - 1));
    simpl; try lia;
    (destruct (Z.gtb_spec s e); destruct (Z.geb_spec s (clist.Len item));
     simpl; try lia);
    (eexists; split; [reflexivity|]; split_and!;
     [ unfold set_key; simpl; by rewrite lookup_insert_eq
     | unfold LLen; by rewrite at_key_set_key
     | apply LKeyExists_set_key
     | apply LKeyExists_LClear ]).
Qed.

Lemma LTrim_to_empty_keeps_key_witness :
  ∃ lis', LTrim abc "k" 2 1 = Ok (lis', true) ∧
          record lis' !! "k" = Some None ∧
          LLen lis' "k" = 0 ∧
          LKeyExists lis' "k" = true ∧
          LKeyExists (LClear abc "k") "k" = false.
Proof.
  apply (LTrim_to_empty_keeps_key abc "k" 2 1).
  - vm_compute. split; discriminate.
  - vm_compute. split; discriminate.
  - vm_compute. split; [reflexivity|discriminate].
  - left. vm_compute. reflexivity.
Defined.

Lemma LKeyExists_true (lis : List) key :
  LKeyExists lis key = true ↔ is_Some (record lis !! key).
Proof. unfold LKeyExists. apply bool_decide_eq_true. Qed.

Lemma LKeyExists_set_key_ne (lis : List) key key' v :
  key ≠ key' → LKeyExists (set_key lis key v) key' = LKeyExists lis key'.
Proof.
  intros Hne. unfold LKeyExists. by rewrite record_set_key_ne.
Qed.

Lemma LKeyExists_at_key (lis : List) key item :
  at_key lis key = Some item → LKeyExists lis key = true.
Proof.
  intros H%at_key_Some. apply LKeyExists_true. by rewrite H.
Qed.

(** C10. A pop does not panic and never removes a map entry: every key
    exists after it exactly when it existed before. On a missing key or an
    empty list it returns the empty sentinel [nil] and leaves the index as it
    is; on a list of one element it returns that element, and afterwards
    the key still exists with length 0. *)
Theorem pop_keeps_key (front : bool) (lis : List) (key : string) :
  ∃ lis' v,
    pop front lis key = Ok (lis', v) ∧
    (∀ k, LKeyExists lis' k = LKeyExists lis k) ∧
    (elements lis key = [] → lis' = lis ∧ v = nil_bytes) ∧
    (∀ x, elements lis key = [x] →
          v = x ∧ LKeyExists lis' key = true ∧ LLen lis' key = 0).
Proof.
  unfold pop, elements, LLen.
  destruct (at_key lis key) as [item|] eqn:Hitem.
  - unfold clist.Len, clist.values, clist.Front, clist.Back.
    destruct (clist.cells item) as [|c cs] eqn:Hcells.
    + simpl. exists lis, nil_bytes. split_and!; try done.
    + assert (∃ e, (if front then head (c :: cs) else last (c :: cs)) = Some e)
        as [e He].
      { destruct front; [by eexists|].
        destruct (last (c :: cs)) eqn:Hlast; [by eexists|].
        by apply last_None in Hlast. }
      rewrite He.
      destruct (Z.gtb_spec (Z.of_nat (length (c :: cs))) 0);
        [|simpl in *; lia].
      simpl. eexists _, _. split; [reflexivity|]. split_and!.
      * intros k. destruct (decide (key = k)) as [<-|Hne].
        -- rewrite LKeyExists_set_key. symmetry. by eapply LKeyExists_at_key.
        -- by apply LKeyExists_set_key_ne.
      * done.
      * intros x [= Hx Hcs]. apply fmap_nil_inv in Hcs. subst cs.
        assert (e = c) as -> by (destruct front; simpl in He; congruence).
        split_and!; [done|apply LKeyExists_set_key|].
        rewrite at_key_set_key. unfold clist.Remove. simpl. rewrite Hcells.
        rewrite filter_cons_False by (intros Hne; by apply Hne).
        done.
  - exists lis, nil_bytes. split_and!; done.
Qed.

Lemma pop_keeps_key_witness :
  ∃ lis', RPop one "k" = Ok (lis', bytes_of_string "a") ∧
          LKeyExists lis' "k" = true ∧
          LLen lis' "k" = 0 ∧
          LPop New "k" = Ok (New, nil_bytes).
Proof.
  destruct (pop_keeps_key false one "k") as (lis' & v & Hpop & _ & _ & Hone).
  destruct (Hone (bytes_of_string "a")) as (-> & Hex & Hlen);
    [vm_compute; reflexivity|].
  destruct (pop_keeps_key true New "k") as (lis0 & v0 & Hpop0 & _ & Hnone & _).
  destruct Hnone as [-> ->]; [vm_compute; reflexivity|].
  exists lis'. split_and!; [exact Hpop|exact Hex|exact Hlen|exact Hpop0].
Defined.

(** C7 as stated does not hold: a push of no values on a missing key
    creates the entry, and [LKeyExists] turns from [false] to [true]. *)
Lemma push_nothing_creates_key :
  LKeyExists New "k" = false ∧
  (LPush New "k" []).2 = LLen New "k" ∧
  LKeyExists (LPush New "k" []).1 "k" = true.
Proof. vm_compute. done. Qed.

(** C7, amended. A push of no values returns the current length of the
    key's logical list and leaves the logical list of every key and the
    entry of every other key as they were. When the key holds a list the
    index is unchanged; otherwise an empty list is created under the key,
    so [LKeyExists] of the key is [true] afterwards in every case. *)
Theorem push_nothing (front : bool) (lis : List) (key : string) :
  (push front lis key []).2 = LLen lis key ∧
  (∀ k, elements (push front lis key []).1 k = elements lis k) ∧
  (∀ k, k ≠ key → record (push front lis key []).1 !! k = record lis !! k) ∧
  LKeyExists (push front lis key []).1 key = true ∧
  (is_Some (at_key lis key) → (push front lis key []).1 = lis) ∧
  (at_key lis key = None →
   record (push front lis key []).1 !! key = Some (Some clist.New)).
Proof.
  unfold push, LLen.
  destruct (at_key lis key) as [item|] eqn:Hitem; cbn [fold_left fst snd].
  - rewrite (set_key_same lis key item) by done.
    split_and!; try done. by eapply LKeyExists_at_key.
  - split_and!.
    + done.
    + intros k. destruct (decide (key = k)) as [<-|Hne].
      * rewrite elements_set_key. unfold elements. by rewrite Hitem.
      * by rewrite !elements_set_key_ne.
    + intros k Hne. by rewrite !record_set_key_ne.
    + apply LKeyExists_set_key.
    + by intros [? ?].
    + intros _. unfold set_key. simpl. by rewrite lookup_insert_eq.
Qed.

Lemma push_nothing_witness :
  (RPush abc "k" []).1 = abc ∧
  (RPush abc "k" []).2 = LLen abc "k" ∧
  record (LPush New "k" []).1 !! "k" = Some (Some clist.New) ∧
  elements (LPush New "k" []).1 "k" = elements New "k".
Proof.
  destruct (push_nothing false abc "k") as (Hn & _ & _ & _ & Hsame & _).
  destruct (push_nothing true New "k") as (_ & Hel & _ & _ & _ & Hnew).
  split_and!.
  - apply Hsame. vm_compute. by eexists.
  - exact Hn.
  - apply Hnew. vm_compute. reflexivity.
  - apply (Hel "k").
Defined.

(** ** Search: [find] *)

Section find_facts.
Import clist.

Lemma find_from_None (v : ByteSlice) (ps : list Element) :
  find_from v ps = None ↔
  Forall (λ x, sliceOfByteIsEqual x v = false) (Value <$> ps).
Proof.
  induction ps as [|p ps IH]; simpl.
  - split; [constructor|done].
  - destruct (sliceOfByteIsEqual (Value p) v) eqn:E.
    + split; [done|]. intros H. inversion H; congruence.
    + rewrite IH. split; [by constructor|]. by inversion 1.
Qed.

Lemma find_from_first (v : ByteSlice) (pre post : list Element) (e : Element) :
  Forall (λ x, sliceOfByteIsEqual x v = false) (Value <$> pre) →
  sliceOfByteIsEqual (Value e) v = true →
  find_from v (pre ++ e :: post) = Some e.
Proof.
  intros Hpre He. induction pre as [|p pre IH]; simpl.
  - by rewrite He.
  - inversion Hpre as [|? ? Hp Hpre']; subst. rewrite Hp. by apply IH.
Qed.

Lemma find_from_elem (v : ByteSlice) (ps : list Element) (e : Element) :
  find_from v ps = Some e → e ∈ ps ∧ sliceOfByteIsEqual (Value e) v = true.
Proof.
  induction ps as [|p ps IH]; simpl; [done|].
  destruct (sliceOfByteIsEqual (Value p) v) eqn:E.
  - intros [= ->]. split; [left|done].
  - intros [? ?]%IH. split; [by right|done].
Qed.

End find_facts.

Lemma find_elem (lis : List) key v e :
  find lis key v = Some e →
  ∃ item, at_key lis key = Some item ∧ e ∈ clist.cells item ∧
          sliceOfByteIsEqual (clist.Value e) v = true.
Proof.
  unfold find. destruct (at_key lis key) as [item|]; [|done].
  intros [? ?]%find_from_elem. by exists item.
Qed.

Lemma find_exists (lis : List) key v :
  Exists (λ x, sliceOfByteIsEqual x v = true) (elements lis key) →
  is_Some (find lis key v).
Proof.
  unfold find, elements. destruct (at_key lis key) as [item|].
  - intros Hex. destruct (find_from v (clist.cells item)) eqn:E; [by eexists|].
    apply find_from_None in E. apply Exists_exists in Hex as [x [Hx Hm]].
    rewrite Forall_forall in E. specialize (E x Hx). congruence.
  - by inversion 1.
Qed.


(** C9. For a key whose list contains the pivot, [LInsert] with an option
    that is neither [Before] nor [After] inserts nothing: it leaves the
    index as it is and returns the current length, not [-1]. *)
Theorem LInsert_other_option (lis : List) (key : string)
    (option : InsertOption) (pivot val : ByteSlice) :
  option ≠ Before → option ≠ After →
  Exists (λ x, sliceOfByteIsEqual x pivot = true) (elements lis key) →
  LInsert lis key option pivot val = Ok (lis, LLen lis key) ∧
  0 <= LLen lis key.
Proof.
  intros Hb Ha Hex. unfold LInsert.
  destruct (find_exists lis key pivot Hex) as [e He]. rewrite He.
  destruct (find_elem lis key pivot e He) as (item & Hitem & _ & _).
  rewrite Hitem. simpl.
  destruct (N.eqb_spec option Before); [done|].
  destruct (N.eqb_spec option After); [done|].
  rewrite (set_key_same lis key item) by done.
  unfold LLen. rewrite Hitem. split; [done|]. unfold clist.Len. lia.
Qed.

Lemma LInsert_other_option_witness :
  LInsert abc "k" 2%N (bytes_of_string "b") (bytes_of_string "x")
  = Ok (abc, LLen abc "k") ∧
  0 <= LLen abc "k".
Proof.
  apply (LInsert_other_option abc "k" 2%N).
  - discriminate.
  - discriminate.
  - apply Exists_cons_tl, Exists_cons_hd. vm_compute. reflexivity.
Defined.

(** ** Insertion next to a cell *)

Section link_facts.
Import clist.
Implicit Types (l : clist.List) (e new : Element) (pre post : list Element).

Lemma link_before_middle new e pre post :
  NoDup (eid <$> pre ++ e :: post) →
  link_before new (eid e) (pre ++ e :: post) = pre ++ new :: e :: post.
Proof.
  induction pre as [|c pre IH]; simpl; intros Hnd.
  - by rewrite decide_True.
  - apply NoDup_cons in Hnd as [Hc Hnd]. rewrite decide_False.
    + f_equal. by apply IH.
    + intros Heq. apply Hc. rewrite Heq, fmap_app, fmap_cons.
      apply elem_of_app. right. left.
Qed.

Lemma link_after_middle new e pre post :
  NoDup (eid <$> pre ++ e :: post) →
  link_after new (eid e) (pre ++ e :: post) = pre ++ e :: new :: post.
Proof.
  induction pre as [|c pre IH]; simpl; intros Hnd.
  - by rewrite decide_True.
  - apply NoDup_cons in Hnd as [Hc Hnd]. rewrite decide_False.
    + f_equal. by apply IH.
    + intros Heq. apply Hc. rewrite Heq, fmap_app, fmap_cons.
      apply elem_of_app. right. left.
Qed.

Lemma link_before_Permutation new (id : nat) (cs : list Element) :
  id ∈ eid <$> cs → link_before new id cs ≡ₚ new :: cs.
Proof.
  induction cs as [|c cs IH]; simpl; intros Hin.
  - by apply elem_of_nil in Hin.
  - destruct (decide (eid c = id)); [done|].
    apply elem_of_cons in Hin as [?|Hin]; [congruence|].
    rewrite IH by done. apply Permutation_swap.
Qed.

Lemma link_after_Permutation new (id : nat) (cs : list Element) :
  id ∈ eid <$> cs → link_after new id cs ≡ₚ new :: cs.
Proof.
  induction cs as [|c cs IH]; simpl; intros Hin.
  - by apply elem_of_nil in Hin.
  - destruct (decide (eid c = id)); [apply Permutation_swap|].
    apply elem_of_cons in Hin as [?|Hin]; [congruence|].
    rewrite IH by done. apply Permutation_swap.
Qed.

Lemma wf_linked l v (cs : list Element) :
  clist.wf l → cs ≡ₚ mkElement (next_eid l) v :: cells l →
  clist.wf (mkList cs (S (next_eid l))).
Proof.
  intros Hwf Hperm. pose proof (wf_PushFront l v Hwf) as [Hnd Hlt].
  split; simpl in *.
  - by rewrite Hperm.
  - by rewrite Hperm.
Qed.

Lemma wf_InsertBefore l v e : clist.wf l → clist.wf (InsertBefore l v e).
Proof.
  intros Hwf. unfold InsertBefore, owns. case_bool_decide; [|done].
  apply (wf_linked l v); [done|]. by apply link_before_Permutation.
Qed.

Lemma wf_InsertAfter l v e : clist.wf l → clist.wf (InsertAfter l v e).
Proof.
  intros Hwf. unfold InsertAfter, owns. case_bool_decide; [|done].
  apply (wf_linked l v); [done|]. by apply link_after_Permutation.
Qed.

Lemma values_InsertBefore l v e pre post :
  clist.wf l → cells l = pre ++ e :: post →
  values (InsertBefore l v e)
  = (Value <$> pre) ++ v :: Value e :: (Value <$> post).
Proof.
  intros [Hnd _] Hcells. unfold InsertBefore, owns, values.
  rewrite bool_decide_eq_true_2.
  - simpl. rewrite Hcells in *. rewrite link_before_middle by done.
    by rewrite fmap_app.
  - rewrite Hcells, fmap_app, fmap_cons. apply elem_of_app. right. left.
Qed.

Lemma values_InsertAfter l v e pre post :
  clist.wf l → cells l = pre ++ e :: post →
  values (InsertAfter l v e)
  = (Value <$> pre) ++ Value e :: v :: (Value <$> post).
Proof.
  intros [Hnd _] Hcells. unfold InsertAfter, owns, values.
  rewrite bool_decide_eq_true_2.
  - simpl. rewrite Hcells in *. rewrite link_after_middle by done.
    by rewrite fmap_app.
  - rewrite Hcells, fmap_app, fmap_cons. apply elem_of_app. right. left.
Qed.

End link_facts.

(** C5. With option [Before] or [After]: when no element of the key's list
    equals the pivot (in particular when the key has no list), [LInsert]
    returns [-1] and leaves the index as it is; otherwise, [p] being the
    first element from the head that equals the pivot, [LInsert] puts the
    new value immediately before or after [p], keeps every other element in
    place and in order, makes the list one longer and returns the new
    length. *)
Theorem LInsert_spec (lis : List) (key : string) (option : InsertOption)
    (pivot val : ByteSlice) :
  wf lis → option = Before ∨ option = After →
  (Forall (λ x, sliceOfByteIsEqual x pivot = false) (elements lis key) →
   LInsert lis key option pivot val = Ok (lis, -1)) ∧
  (∀ pre p post,
     elements lis key = pre ++ p :: post →
     Forall (λ x, sliceOfByteIsEqual x pivot = false) pre →
     sliceOfByteIsEqual p pivot = true →
     ∃ lis',
       LInsert lis key option pivot val = Ok (lis', LLen lis key + 1) ∧
       elements lis' key
       = (if (option =? Before)%N then pre ++ val :: p :: post
          else pre ++ p :: val :: post) ∧
       LLen lis' key = LLen lis key + 1 ∧
       (∀ k, k ≠ key → record lis' !! k = record lis !! k) ∧
       wf lis').
Proof.
  intros Hwf Hopt. split.
  - intros Hnone. unfold LInsert, find, elements in *.
    destruct (at_key lis key) as [item|]; [|done].
    apply find_from_None in Hnone. by rewrite Hnone.
  - intros pre p post Hel Hpre Hp. unfold elements in Hel.
    destruct (at_key lis key) as [item|] eqn:Hitem;
      [|by destruct pre].
    pose proof (wf_at_key _ _ _ Hwf Hitem) as Hl.
    unfold clist.values in Hel.
    apply fmap_app_inv in Hel as (cpre & crest & -> & Hrest & Hcells).
    symmetry in Hrest.
    apply fmap_cons_inv in Hrest as (e & cpost & -> & -> & ->).
    assert (find lis key pivot = Some e) as Hfind.
    { unfold find. rewrite Hitem, Hcells. by apply find_from_first. }
    unfold LInsert. rewrite Hfind, Hitem. simpl.
    assert (clist.values item
            = (clist.Value <$> cpre) ++ clist.Value e :: (clist.Value <$> cpost))
      as Hvals.
    { unfold clist.values. by rewrite Hcells, fmap_app. }
    assert (LLen lis key = Z.of_nat (length (clist.values item))) as HL.
    { unfold LLen. rewrite Hitem. apply Len_values. }
    destruct Hopt as [-> | ->]; simpl.
    + pose proof (values_InsertBefore item val e cpre cpost Hl Hcells) as Hins.
      eexists. split_and!.
      * f_equal. f_equal. rewrite Len_values, Hins, HL, Hvals.
        rewrite !length_app. simpl. lia.
      * by rewrite elements_set_key.
      * rewrite LLen_elements, elements_set_key, Hins, HL, Hvals.
        rewrite !length_app. simpl. lia.
      * intros k Hne. by apply record_set_key_ne.
      * by apply wf_set_key, wf_InsertBefore.
    + pose proof (values_InsertAfter item val e cpre cpost Hl Hcells) as Hins.
      eexists. split_and!.
      * f_equal. f_equal. rewrite Len_values, Hins, HL, Hvals.
        rewrite !length_app. simpl. lia.
      * by rewrite elements_set_key.
      * rewrite LLen_elements, elements_set_key, Hins, HL, Hvals.
        rewrite !length_app. simpl. lia.
      * intros k Hne. by apply record_set_key_ne.
      * by apply wf_set_key, wf_InsertAfter.
Qed.

Lemma LInsert_spec_witness :
  ∃ lis',
    LInsert abc "k" Before (bytes_of_string "b") (bytes_of_string "x")
    = Ok (lis', LLen abc "k" + 1) ∧
    elements lis' "k"
    = [bytes_of_string "a"; bytes_of_string "x"; bytes_of_string "b";
       bytes_of_string "c"] ∧
    LLen lis' "k" = LLen abc "k" + 1.
Proof.
  assert (wf abc) as Hwf by (apply (bool_decide_unpack _); vm_compute; exact I).
  destruct (LInsert_spec abc "k" Before (bytes_of_string "b")
              (bytes_of_string "x") Hwf (or_introl eq_refl)) as [_ Hfound].
  destruct (Hfound [bytes_of_string "a"] (bytes_of_string "b")
                   [bytes_of_string "c"])
    as (lis' & Hins & Hel & Hlen & _).
  - vm_compute. reflexivity.
  - constructor; [vm_compute; reflexivity|constructor].
  - vm_compute. reflexivity.
  - exists lis'. split_and!; [exact Hins|exact Hel|exact Hlen].
Defined.

(** ** Range extraction: [LRange] *)

Lemma slice_of_nil {A : Type} (start end_ : Z) : slice_of (@nil A) start end_ = [].
Proof. unfold slice_of. by rewrite drop_nil, take_nil. Qed.

Lemma slice_of_empty {A : Type} (l : list A) (start end_ : Z) :
  start > end_ ∨ start >= Z.of_nat (length l) → slice_of l start end_ = [].
Proof.
  unfold slice_of. intros [H|H].
  - replace (Z.to_nat (end_ + 1 - start)) with 0%nat by lia. done.
  - rewrite drop_ge by lia. apply take_nil.
Qed.

Lemma slice_of_all {A : Type} (l : list A) :
  slice_of l 0 (Z.of_nat (length l) - 1) = l.
Proof.
  unfold slice_of.
  replace (Z.to_nat (Z.of_nat (length l) - 1 + 1 - 0)) with (length l) by lia.
  change (Z.to_nat 0) with 0%nat. rewrite drop_0. by apply take_ge.
Qed.

(** The scan from the head, started at position [flag], appends the
    elements whose position lies in [[start, end_]]. *)
Lemma range_forward_spec (ps : list clist.Element) (flag start end_ : Z)
    (val : list ByteSlice) :
  0 <= flag → flag + Z.of_nat (length ps) <= max_int →
  range_forward ps flag start end_ val
  = val ++ slice_of (clist.Value <$> ps) (Z.max 0 (start - flag)) (end_ - flag).
Proof.
  revert flag val. induction ps as [|p ps IH]; intros flag val Hflag Hmax.
  - simpl. by rewrite slice_of_nil, app_nil_r.
  - cbn [range_forward]. destruct (Z.leb_spec flag end_) as [Hle|Hgt].
    + unfold add. rewrite wrap_small
        by (unfold in_range, min_int, max_int in *; simpl in Hmax; lia).
      rewrite IH by (simpl in Hmax; lia).
      destruct (Z.geb_spec flag start) as [Hge|Hlt].
      * rewrite <- app_assoc. f_equal. unfold slice_of.
        replace (Z.to_nat (Z.max 0 (start - (flag + 1)))) with 0%nat by lia.
        replace (Z.to_nat (Z.max 0 (start - flag))) with 0%nat by lia.
        replace (Z.to_nat (end_ - flag + 1 - Z.max 0 (start - flag)))
          with (S (Z.to_nat (end_ - (flag + 1) + 1
                            - Z.max 0 (start - (flag + 1))))) by lia.
        done.
      * f_equal. unfold slice_of.
        replace (Z.to_nat (Z.max 0 (start - flag)))
          with (S (Z.to_nat (Z.max 0 (start - (flag + 1))))) by lia.
        rewrite fmap_cons. cbn [drop]. f_equal. lia.
    + rewrite slice_of_empty; [by rewrite app_nil_r|]. left. lia.
Qed.

(** The scan from the tail over the first [length ps] cells appends the
    elements whose position lies in [[start, end_]], last first. *)
Lemma range_backward_spec (ps : list clist.Element) (start end_ : Z)
    (val : list ByteSlice) :
  0 <= start → Z.of_nat (length ps) <= max_int →
  range_backward (reverse ps) (Z.of_nat (length ps) - 1) start end_ val
  = val ++ reverse (slice_of (clist.Value <$> ps) start end_).
Proof.
  revert val. induction ps as [|p ps IH] using rev_ind; intros val Hs Hmax.
  - simpl. by rewrite slice_of_nil, app_nil_r.
  - rewrite reverse_snoc, length_app in *. cbn [length range_backward] in *.
    replace (Z.of_nat (length ps + 1) - 1) with (Z.of_nat (length ps)) by lia.
    destruct (Z.geb_spec (Z.of_nat (length ps)) start) as [Hge|Hlt].
    + unfold sub. rewrite wrap_small
        by (unfold in_range, min_int, max_int in *; lia).
      rewrite IH by lia. rewrite fmap_app. cbn [fmap list_fmap].
      unfold slice_of.
      rewrite drop_app_le by (rewrite length_fmap; lia).
      destruct (Z.leb_spec (Z.of_nat (length ps)) end_) as [Hle|Hgt].
      * rewrite <- app_assoc. f_equal.
        rewrite !take_ge
          by (rewrite ?length_app, length_drop, length_fmap; simpl; lia).
        by rewrite reverse_snoc.
      * rewrite take_app_le by (rewrite length_drop, length_fmap; lia).
        done.
    + rewrite slice_of_empty; [by rewrite app_nil_r|].
      right. rewrite length_fmap, length_app. simpl. lia.
Qed.

Lemma swap_middle {A : Type} (pre mid post : list A) (x y : A) :
  (pre ++ (x :: mid ++ [y]) ++ post) !! length pre = Some x ∧
  (pre ++ (x :: mid ++ [y]) ++ post) !! (length pre + S (length mid))%nat
  = Some y ∧
  <[(length pre + S (length mid))%nat := x]>
    (<[length pre := y]> (pre ++ (x :: mid ++ [y]) ++ post))
  = (pre ++ [y]) ++ mid ++ ([x] ++ post).
Proof.
  assert (pre ++ (x :: mid ++ [y]) ++ post = pre ++ x :: (mid ++ y :: post))
    as -> by (simpl; by rewrite <- app_assoc).
  split_and!.
  - by apply list_lookup_middle.
  - rewrite lookup_app_r by lia.
    replace (length pre + S (length mid) - length pre)%nat
      with (S (length mid)) by lia.
    simpl. by apply list_lookup_middle.
  - replace (length pre) with (length pre + 0)%nat at 2 by lia.
    rewrite !insert_app_r. simpl.
    replace (length mid) with (length mid + 0)%nat by lia.
    rewrite insert_app_r. simpl. by rewrite <- !app_assoc.
Qed.

(** The swapping loop reverses the middle part [mid] of [val]. *)
Lemma swap_ends_spec (fuel : nat) (pre mid post : list ByteSlice) :
  (length mid <= 2 * fuel + 1)%nat →
  Z.of_nat (length pre + length mid) <= max_int →
  swap_ends fuel (Z.of_nat (length pre))
            (Z.of_nat (length pre) + Z.of_nat (length mid) - 1)
            (pre ++ mid ++ post)
  = pre ++ reverse mid ++ post.
Proof.
  revert pre mid post. induction fuel as [|fuel IH]; intros pre mid post Hf Hmax.
  - destruct mid as [|x [|y mid]]; simpl in *; try lia; done.
  - cbn [swap_ends].
    destruct mid as [|x mid].
    { rewrite (proj2 (Z.ltb_ge _ _)) by (simpl; lia). done. }
    destruct mid as [|y mid _] using rev_ind.
    { rewrite (proj2 (Z.ltb_ge _ _)) by (simpl; lia). done. }
    cbn [length] in *. rewrite length_app in *. cbn [length] in *.
    rewrite (proj2 (Z.ltb_lt _ _)) by lia.
    destruct (swap_middle pre mid post x y) as (Hi & Hj & Hswap).
    rewrite Nat2Z.id.
    replace (Z.to_nat (Z.of_nat (length pre)
                       + Z.of_nat (S (length mid + 1)) - 1))
      with (length pre + S (length mid))%nat by lia.
    rewrite Hi, Hj, Hswap.
    unfold add, sub.
    rewrite !wrap_small by (unfold in_range, min_int, max_int in *; lia).
    replace (Z.of_nat (length pre) + 1)
      with (Z.of_nat (length (pre ++ [y])))
      by (rewrite length_app; simpl; lia).
    replace (Z.of_nat (length pre) + Z.of_nat (S (length mid + 1)) - 1 - 1)
      with (Z.of_nat (length (pre ++ [y])) + Z.of_nat (length mid) - 1)
      by (rewrite length_app; simpl; lia).
    rewrite IH by (rewrite ?length_app; simpl; lia).
    rewrite reverse_cons, reverse_snoc.
    by rewrite <- !app_assoc.
Qed.

Lemma swap_ends_reverse (val : list ByteSlice) :
  Z.of_nat (length val) <= max_int →
  swap_ends (length val) 0 (Z.of_nat (length val) - 1) val = reverse val.
Proof.
  intros Hmax.
  pose proof (swap_ends_spec (length val) [] val []) as H.
  simpl in H. rewrite !app_nil_r in H. apply H; lia.
Qed.

Lemma length_slice_of {A : Type} (l : list A) (start end_ : Z) :
  (length (slice_of l start end_) <= length l)%nat.
Proof.
  unfold slice_of. rewrite length_take, length_drop. lia.
Qed.

(** Both scans of [LRange] produce the elements at positions
    [start..end_], head to tail. *)
Lemma LRange_scan_forward (item : clist.List) (start end_ : Z) :
  0 <= start → clist.Len item <= max_int →
  range_forward (clist.cells item) 0 start end_ []
  = slice_of (clist.values item) start end_.
Proof.
  intros Hs Hmax. rewrite range_forward_spec by (unfold clist.Len in *; lia).
  simpl. unfold clist.values. do 2 f_equal; lia.
Qed.

Lemma LRange_scan_backward (item : clist.List) (start end_ : Z) :
  0 <= start → clist.Len item <= max_int →
  (let flag := sub (clist.Len item) 1 in
   let val := range_backward (reverse (clist.cells item)) flag start end_ [] in
   if Z.of_nat (length val) >? 0
   then swap_ends (length val) 0 (sub (Z.of_nat (length val)) 1) val
   else val)
  = slice_of (clist.values item) start end_.
Proof.
  intros Hs Hmax. unfold clist.Len in *. cbv zeta.
  pose proof (length_slice_of (clist.values item) start end_) as Hlen.
  unfold clist.values in Hlen at 2. rewrite length_fmap in Hlen.
  assert (range_backward (reverse (clist.cells item))
            (sub (Z.of_nat (length (clist.cells item))) 1) start end_ []
          = reverse (slice_of (clist.values item) start end_)) as ->.
  { unfold sub.
    rewrite wrap_small by (unfold in_range, min_int, max_int in *; lia).
    by rewrite range_backward_spec by lia. }
  set (sl := slice_of (clist.values item) start end_) in *.
  rewrite length_reverse.
  destruct (Z.gtb_spec (Z.of_nat (length sl)) 0) as [Hpos|Hz].
  - unfold sub.
    rewrite wrap_small by (unfold in_range, min_int, max_int in *; lia).
    rewrite <- (length_reverse sl).
    rewrite swap_ends_reverse by (rewrite length_reverse; lia).
    apply reverse_involutive.
  - destruct sl; [done|simpl in Hz; lia].
Qed.

(** C3. [LRange] returns the elements at the normalised positions
    [max(start', 0) .. min(end', length-1)] (a negative bound is offset by
    the length), head to tail, whichever of its two scans it runs: both
    scans compute that same list. The result is empty when the key has no
    non-empty list, when the normalised [start] is greater than the
    normalised [end], and when it is at least the length. *)
Theorem LRange_spec (lis : List) (key : string) (start end_ : Z) :
  in_range start → in_range end_ → LLen lis key <= max_int →
  LRange lis key start end_
  = slice_of (elements lis key)
             (norm_start (LLen lis key) start) (norm_end (LLen lis key) end_) ∧
  (∀ item, at_key lis key = Some item →
     range_forward (clist.cells item) 0
       (norm_start (LLen lis key) start) (norm_end (LLen lis key) end_) []
     = reverse (range_backward (reverse (clist.cells item))
                  (LLen lis key - 1)
                  (norm_start (LLen lis key) start)
                  (norm_end (LLen lis key) end_) [])) ∧
  (LLen lis key = 0 ∨
   norm_start (LLen lis key) start > norm_end (LLen lis key) end_ ∨
   norm_start (LLen lis key) start >= LLen lis key →
   LRange lis key start end_ = []).
Proof.
  intros Hs He Hmax.
  assert (LRange lis key start end_
          = slice_of (elements lis key)
              (norm_start (LLen lis key) start)
              (norm_end (LLen lis key) end_)) as Heq.
  { unfold LRange, LLen, elements in *.
    destruct (at_key lis key) as [item|] eqn:Hitem;
      [|by rewrite slice_of_nil].
    pose proof (norm_start_bounds (clist.Len item) start) as Hs0.
    destruct (Z.leb_spec (clist.Len item) 0) as [Hz|Hpos].
    { rewrite slice_of_empty; [done|]. right.
      rewrite <- Len_values. lia. }
    rewrite handleIndex_norm by (try done; lia).
    set (s := norm_start (clist.Len item) start) in *.
    set (e := norm_end (clist.Len item) end_) in *.
    destruct (Z.gtb_spec s e) as [Hgt|Hle]; simpl.
    { rewrite slice_of_empty; [done|]. left. lia. }
    destruct (Z.geb_spec s (clist.Len item)) as [Hge|Hlt]; simpl.
    { rewrite slice_of_empty; [done|]. right. rewrite <- Len_values. lia. }
    destruct ((e <=? shr1 (clist.Len item))
              || (sub e (shr1 (clist.Len item))
                  <? sub (shr1 (clist.Len item)) s)).
    - by apply LRange_scan_forward.
    - by apply (LRange_scan_backward item s e). }
  split_and!.
  - exact Heq.
  - intros item Hitem. unfold LLen. rewrite Hitem.
    pose proof (norm_start_bounds (clist.Len item) start) as Hs0.
    unfold LLen in Hmax. rewrite Hitem in Hmax.
    rewrite LRange_scan_forward by done.
    unfold clist.Len in *. rewrite range_backward_spec by lia.
    simpl. by rewrite reverse_involutive.
  - intros Hempty. rewrite Heq. rewrite LLen_elements in *.
    pose proof (norm_start_bounds (Z.of_nat (length (elements lis key))) start).
    apply slice_of_empty. lia.
Qed.

Lemma LRange_spec_witness :
  LRange abc "k" (-2) 5
  = slice_of (elements abc "k")
             (norm_start (LLen abc "k") (-2)) (norm_end (LLen abc "k") 5) ∧
  (∀ item, at_key abc "k" = Some item →
     range_forward (clist.cells item) 0
       (norm_start (LLen abc "k") (-2)) (norm_end (LLen abc "k") 5) []
     = reverse (range_backward (reverse (clist.cells item))
                  (LLen abc "k" - 1)
                  (norm_start (LLen abc "k") (-2))
                  (norm_end (LLen abc "k") 5) [])) ∧
  (LLen abc "k" = 0 ∨
   norm_start (LLen abc "k") (-2) > norm_end (LLen abc "k") 5 ∨
   norm_start (LLen abc "k") (-2) >= LLen abc "k" →
   LRange abc "k" (-2) 5 = []).
Proof.
  apply (LRange_spec abc "k" (-2) 5).
  - vm_compute. split; discriminate.
  - vm_compute. split; discriminate.
  - vm_compute. discriminate.
Defined.

(** ** Removal by value: [LRem] *)

Lemma filter_ext_in {A : Type} (P Q : A → Prop)
    `{!∀ x, Decision (P x)} `{!∀ x, Decision (Q x)} (l : list A) :
  (∀ x, x ∈ l → P x ↔ Q x) → filter P l = filter Q l.
Proof.
  induction l as [|x l IH]; intros Hext; [done|].
  assert (filter P l = filter Q l) as Hl.
  { apply IH. intros y Hy. apply Hext. by right. }
  destruct (decide (P x)) as [HP|HP].
  - rewrite !filter_cons_True; [by f_equal|by apply Hext; [left|]|done].
  - rewrite !filter_cons_False; [done| |done].
    intros HQ. apply HP. apply Hext; [left|done].
Qed.

Lemma filter_all {A : Type} (P : A → Prop) `{!∀ x, Decision (P x)}
    (l : list A) :
  (∀ x, x ∈ l → P x) → filter P l = l.
Proof.
  induction l as [|x l IH]; intros HP; [done|].
  rewrite filter_cons_True by (apply HP; left).
  f_equal. apply IH. intros y Hy. apply HP. by right.
Qed.

Lemma filter_Value (v : ByteSlice) (cs : list clist.Element) :
  clist.Value <$> filter (λ c, sliceOfByteIsEqual (clist.Value c) v = true) cs
  = filter (λ x, sliceOfByteIsEqual x v = true) (clist.Value <$> cs).
Proof.
  induction cs as [|c cs IH]; [done|].
  rewrite fmap_cons.
  destruct (decide (sliceOfByteIsEqual (clist.Value c) v = true)).
  - rewrite !filter_cons_True by done. rewrite fmap_cons. by f_equal.
  - by rewrite !filter_cons_False by done.
Qed.

Lemma occurrences_cells (v : ByteSlice) (cs : list clist.Element) :
  length (filter (λ c, sliceOfByteIsEqual (clist.Value c) v = true) cs)
  = occurrences v (clist.Value <$> cs).
Proof. unfold occurrences. by rewrite <- filter_Value, length_fmap. Qed.

Lemma elem_of_take_filter {A : Type} (P : A → Prop) `{!∀ x, Decision (P x)}
    (k : nat) (l : list A) (x : A) :
  x ∈ take k (filter P l) → x ∈ l.
Proof.
  intros Hx. eapply elem_of_sublist in Hx; [|apply sublist_take].
  by apply list_elem_of_filter in Hx as [_ ?].
Qed.

Lemma sublist_reverse {A : Type} (l1 l2 : list A) :
  l1 `sublist_of` l2 → reverse l1 `sublist_of` reverse l2.
Proof.
  induction 1 as [|x l1 l2 _ IH|x l1 l2 _ IH].
  - done.
  - rewrite !reverse_cons. by apply sublist_app.
  - rewrite reverse_cons. by apply sublist_inserts_r.
Qed.

(** The scans collect the matching cells in scan order, [scan_limit] up to
    [limit] of them. *)
Lemma scan_all_spec (v : ByteSlice) (ps ele : list clist.Element) :
  scan_all v ps ele
  = ele ++ filter (λ c, sliceOfByteIsEqual (clist.Value c) v = true) ps.
Proof.
  revert ele. induction ps as [|p ps IH]; intros ele; simpl.
  - by rewrite app_nil_r.
  - rewrite IH. destruct (sliceOfByteIsEqual (clist.Value p) v) eqn:E.
    + rewrite filter_cons_True by done. by rewrite <- app_assoc.
    + rewrite filter_cons_False by congruence. done.
Qed.

Lemma scan_limit_spec (v : ByteSlice) (limit : Z) (ps ele : list clist.Element) :
  scan_limit v limit ps ele
  = ele ++ take (Z.to_nat (limit - Z.of_nat (length ele)))
                (filter (λ c, sliceOfByteIsEqual (clist.Value c) v = true) ps).
Proof.
  revert ele. induction ps as [|p ps IH]; intros ele; cbn [scan_limit].
  - by rewrite filter_nil, take_nil, app_nil_r.
  - destruct (Z.ltb_spec (Z.of_nat (length ele)) limit) as [Hlt|Hge].
    + rewrite IH. destruct (sliceOfByteIsEqual (clist.Value p) v) eqn:E.
      * rewrite filter_cons_True by done. rewrite <- app_assoc. f_equal.
        rewrite length_app. cbn [length].
        replace (Z.to_nat (limit - Z.of_nat (length ele)))
          with (S (Z.to_nat (limit - Z.of_nat (length ele + 1)))) by lia.
        done.
      * rewrite filter_cons_False by congruence. done.
    + replace (Z.to_nat (limit - Z.of_nat (length ele))) with 0%nat by lia.
      by rewrite app_nil_r.
Qed.

Lemma remove_first_0 (v : ByteSlice) (l : list ByteSlice) :
  remove_first 0 v l = l.
Proof. by destruct l. Qed.

(** Removing the first [k] matching cells, found by identity, removes the
    first [k] matching values. *)
Lemma remove_collected (v : ByteSlice) (k : nat) (cs : list clist.Element) :
  NoDup (clist.eid <$> cs) →
  clist.Value <$>
    filter (λ c, clist.eid c ∉
                   clist.eid <$>
                     take k (filter (λ c, sliceOfByteIsEqual (clist.Value c) v
                                          = true) cs)) cs
  = remove_first k v (clist.Value <$> cs).
Proof.
  revert k. induction cs as [|c cs IH]; intros k Hnd; [done|].
  rewrite fmap_cons in Hnd. apply NoDup_cons in Hnd as [Hc Hnd].
  assert (∀ (sub : list clist.Element) x,
            sub ⊆ cs → x ∈ cs →
            clist.eid x ∉ clist.eid <$> c :: sub ↔
            clist.eid x ∉ clist.eid <$> sub) as Hskip.
  { intros sub x Hsub Hx. rewrite fmap_cons, not_elem_of_cons.
    split; [tauto|]. intros Hn. split; [|done]. intros Heq. apply Hc.
    rewrite <- Heq. apply list_elem_of_fmap. by exists x. }
  destruct k as [|k].
  - rewrite remove_first_0. f_equal. apply filter_all.
    intros x _. simpl. apply not_elem_of_nil.
  - rewrite fmap_cons. cbn [remove_first].
    destruct (sliceOfByteIsEqual (clist.Value c) v) eqn:E.
    + rewrite (filter_cons_True (λ c, sliceOfByteIsEqual _ v = true)) by done.
      cbn [take]. rewrite filter_cons_False.
      2:{ intros Hn. apply Hn. rewrite fmap_cons. left. }
      rewrite <- IH by done. f_equal. apply filter_ext_in.
      intros x Hx. apply Hskip; [|done].
      intros y Hy. by eapply elem_of_take_filter.
    + rewrite (filter_cons_False (λ c, sliceOfByteIsEqual _ v = true))
        by congruence.
      rewrite filter_cons_True.
      2:{ intros [y [Heq Hy]]%list_elem_of_fmap. apply Hc. rewrite Heq.
          apply list_elem_of_fmap. exists y. split; [done|].
          by eapply elem_of_take_filter. }
      rewrite fmap_cons. f_equal. by apply IH.
Qed.

Lemma remove_first_all (v : ByteSlice) (n : nat) (l : list ByteSlice) :
  (occurrences v l <= n)%nat →
  remove_first n v l = filter (λ x, sliceOfByteIsEqual x v ≠ true) l.
Proof.
  unfold occurrences. revert n. induction l as [|x l IH]; intros n Hn; [done|].
  destruct (sliceOfByteIsEqual x v) eqn:E.
  - rewrite filter_cons_True in Hn by done.
    rewrite filter_cons_False by (intros H; by apply H).
    destruct n as [|n]; simpl in Hn; [lia|].
    cbn [remove_first]. rewrite E. apply IH. lia.
  - rewrite filter_cons_False in Hn by congruence.
    rewrite filter_cons_True by congruence.
    destruct n as [|n]; cbn [remove_first].
    + f_equal. rewrite <- (IH 0%nat) by done. by rewrite remove_first_0.
    + rewrite E. f_equal. by apply IH.
Qed.

(** What is left keeps its order, and no other element is touched. *)
Lemma remove_first_sublist (v : ByteSlice) (n : nat) (l : list ByteSlice) :
  remove_first n v l `sublist_of` l.
Proof.
  revert n. induction l as [|x l IH]; intros n; [done|].
  destruct n as [|n]; cbn [remove_first]; [done|].
  destruct (sliceOfByteIsEqual x v).
  - by apply sublist_cons.
  - by apply sublist_skip.
Qed.

Lemma remove_first_others (v : ByteSlice) (n : nat) (l : list ByteSlice) :
  filter (λ x, sliceOfByteIsEqual x v ≠ true) (remove_first n v l)
  = filter (λ x, sliceOfByteIsEqual x v ≠ true) l.
Proof.
  revert n. induction l as [|x l IH]; intros n; [done|].
  destruct n as [|n]; cbn [remove_first]; [done|].
  destruct (sliceOfByteIsEqual x v) eqn:E.
  - rewrite (filter_cons_False _ x) by (intros H; by apply H). apply IH.
  - rewrite !(filter_cons_True _ x) by congruence. f_equal. apply IH.
Qed.

Lemma remove_first_length (v : ByteSlice) (n : nat) (l : list ByteSlice) :
  (length (remove_first n v l) + Nat.min n (occurrences v l))%nat = length l.
Proof.
  unfold occurrences. revert n. induction l as [|x l IH]; intros n.
  - simpl. lia.
  - destruct n as [|n]; cbn [remove_first]; [simpl; lia|].
    destruct (sliceOfByteIsEqual x v) eqn:E.
    + rewrite filter_cons_True by done. cbn [length].
      specialize (IH n). lia.
    + rewrite filter_cons_False by congruence. cbn [length].
      specialize (IH (S n)). lia.
Qed.

Lemma remove_last_sublist (v : ByteSlice) (n : nat) (l : list ByteSlice) :
  remove_last n v l `sublist_of` l.
Proof.
  unfold remove_last. rewrite <- (reverse_involutive l) at 2.
  apply sublist_reverse, remove_first_sublist.
Qed.

Lemma remove_last_others (v : ByteSlice) (n : nat) (l : list ByteSlice) :
  filter (λ x, sliceOfByteIsEqual x v ≠ true) (remove_last n v l)
  = filter (λ x, sliceOfByteIsEqual x v ≠ true) l.
Proof.
  unfold remove_last.
  by rewrite filter_reverse, remove_first_others, <- filter_reverse,
       reverse_involutive.
Qed.

Lemma occurrences_reverse (v : ByteSlice) (l : list ByteSlice) :
  occurrences v (reverse l) = occurrences v l.
Proof. unfold occurrences. by rewrite filter_reverse, length_reverse. Qed.

Lemma remove_first_min (v : ByteSlice) (n : nat) (l : list ByteSlice) :
  remove_first n v l = remove_first (Nat.min n (occurrences v l)) v l.
Proof.
  destruct (decide (n <= occurrences v l)%nat) as [Hle|Hgt].
  - by rewrite Nat.min_l.
  - rewrite Nat.min_r by lia. by rewrite !remove_first_all by lia.
Qed.

(** The two ways [LRem] empties [ele] into the list: cells collected from
    the head, cells collected from the tail. *)
Lemma remove_scanned_forward (item : clist.List) (v : ByteSlice) (n : nat) :
  clist.wf item →
  clist.values
    (fold_left clist.Remove
       (take n (filter (λ c, sliceOfByteIsEqual (clist.Value c) v = true)
                       (clist.cells item))) item)
  = remove_first n v (clist.values item).
Proof.
  intros [Hnd _]. unfold clist.values.
  destruct (cells_fold_Remove
              (take n (filter (λ c, sliceOfByteIsEqual (clist.Value c) v = true)
                              (clist.cells item))) item) as [-> _].
  by apply remove_collected.
Qed.

Lemma remove_scanned_backward (item : clist.List) (v : ByteSlice) (n : nat) :
  clist.wf item →
  clist.values
    (fold_left clist.Remove
       (take n (filter (λ c, sliceOfByteIsEqual (clist.Value c) v = true)
                       (reverse (clist.cells item)))) item)
  = remove_last n v (clist.values item).
Proof.
  intros [Hnd _]. unfold clist.values, remove_last.
  destruct (cells_fold_Remove
              (take n (filter (λ c, sliceOfByteIsEqual (clist.Value c) v = true)
                              (reverse (clist.cells item)))) item) as [-> _].
  pose proof (remove_collected v n (reverse (clist.cells item))) as H.
  set (ele := take n (filter _ (reverse (clist.cells item)))) in *.
  rewrite <- fmap_reverse, <- H.
  - by rewrite filter_reverse, fmap_reverse, reverse_involutive.
  - by rewrite fmap_reverse, reverse_Permutation.
Qed.

Lemma length_scanned (v : ByteSlice) (n : nat) (cs : list clist.Element) :
  length (take n (filter (λ c, sliceOfByteIsEqual (clist.Value c) v = true) cs))
  = Nat.min n (occurrences v (clist.Value <$> cs)).
Proof. by rewrite length_take, occurrences_cells. Qed.

(** X13. [LRem] for every count whose negation is representable, that is
    every count but [min_int]: it removes all occurrences of [val] for
    [count = 0], the first [min(count, #matches)] from the head for
    [count > 0] and the last [min(|count|, #matches)] from the tail for
    [count < 0]. It returns their number, 0 when the key has no list,
    leaves every other element in place and in order, and touches no other
    key. *)
Lemma LRem_spec (lis : List) (key : string) (val : ByteSlice) (count : Z) :
  wf lis → in_range count → count ≠ min_int →
  let l := elements lis key in
  let k := if count =? 0 then occurrences val l
           else Nat.min (Z.to_nat (Z.abs count)) (occurrences val l) in
  (LRem lis key val count).2 = Z.of_nat k ∧
  elements (LRem lis key val count).1 key
  = (if count <? 0 then remove_last k val l else remove_first k val l) ∧
  (count = 0 →
   elements (LRem lis key val count).1 key
   = filter (λ x, sliceOfByteIsEqual x val ≠ true) l) ∧
  elements (LRem lis key val count).1 key `sublist_of` l ∧
  filter (λ x, sliceOfByteIsEqual x val ≠ true)
         (elements (LRem lis key val count).1 key)
  = filter (λ x, sliceOfByteIsEqual x val ≠ true) l ∧
  (∀ k', k' ≠ key →
         record (LRem lis key val count).1 !! k' = record lis !! k') ∧
  wf (LRem lis key val count).1.
Proof.
  intros Hwf Hr Hmin l k.
  assert ((LRem lis key val count).2 = Z.of_nat k ∧
          elements (LRem lis key val count).1 key
          = (if count <? 0 then remove_last k val l else remove_first k val l) ∧
          (∀ k', k' ≠ key →
                 record (LRem lis key val count).1 !! k' = record lis !! k') ∧
          wf (LRem lis key val count).1) as (Hn & Hel & Hframe & Hwf').
  { subst l k. unfold LRem, elements.
    destruct (at_key lis key) as [item|] eqn:Hitem.
    2:{ cbn [fst snd occurrences filter list_filter length].
        rewrite Hitem. unfold remove_last.
        destruct (count =? 0), (count <? 0); rewrite ?Nat.min_0_r; done. }
    pose proof (wf_at_key _ _ _ Hwf Hitem) as Hl.
    cbn [fst snd]. rewrite at_key_set_key.
    split_and!; [| |intros k' Hne; by apply record_set_key_ne
                 |by apply wf_set_key, wf_fold_Remove].
    - destruct (Z.eqb_spec count 0) as [->|Hnz].
      + cbn [Z.gtb Z.ltb Z.compare]. rewrite scan_all_spec.
        cbn [app]. by rewrite occurrences_cells.
      + destruct (Z.gtb_spec count 0) as [Hpos|Hneg].
        * rewrite (proj2 (Z.ltb_ge count 0)) by lia.
          rewrite scan_limit_spec. cbn [app length].
          rewrite length_scanned. do 2 f_equal. lia.
        * rewrite (proj2 (Z.ltb_lt count 0)) by lia.
          rewrite scan_limit_spec. cbn [app length].
          rewrite length_scanned, fmap_reverse, occurrences_reverse.
          unfold neg. rewrite wrap_small
            by (unfold in_range, min_int, max_int in *; lia).
          do 2 f_equal. lia.
    - destruct (Z.eqb_spec count 0) as [->|Hnz].
      + cbn [Z.gtb Z.ltb Z.compare]. rewrite scan_all_spec. cbn [app].
        rewrite <- (take_ge (filter _ (clist.cells item))
                            (occurrences val (clist.values item)))
          by (unfold clist.values; by rewrite occurrences_cells).
        by apply remove_scanned_forward.
      + destruct (Z.gtb_spec count 0) as [Hpos|Hneg].
        * rewrite (proj2 (Z.ltb_ge count 0)) by lia.
          rewrite scan_limit_spec. cbn [app length].
          rewrite remove_scanned_forward by done.
          rewrite remove_first_min. do 2 f_equal. lia.
        * rewrite (proj2 (Z.ltb_lt count 0)) by lia.
          rewrite scan_limit_spec. cbn [app length].
          rewrite remove_scanned_backward by done.
          unfold neg. rewrite wrap_small
            by (unfold in_range, min_int, max_int in *; lia).
          unfold remove_last. f_equal. rewrite remove_first_min.
          rewrite occurrences_reverse. do 2 f_equal. lia. }
  split_and!; try done.
  - intros ->. rewrite Hel. simpl. by apply remove_first_all.
  - rewrite Hel. destruct (count <? 0);
      [apply remove_last_sublist|apply remove_first_sublist].
  - rewrite Hel. destruct (count <? 0);
      [apply remove_last_others|apply remove_first_others].
Qed.

(** For [count = min_int] the negation [-count] wraps around to [min_int]
    itself, the bound [len(ele) < -count] fails at once and nothing is
    collected. *)
Lemma LRem_min_int (lis : List) (key : string) (val : ByteSlice) :
  LRem lis key val min_int = (lis, 0).
Proof.
  unfold LRem. destruct (at_key lis key) as [item|] eqn:Hitem; [|done].
  rewrite neg_min_int.
  change (min_int =? 0) with false. change (min_int >? 0) with false.
  change (min_int <? 0) with true. cbv iota.
  assert (scan_limit val min_int (reverse (clist.cells item)) [] = []) as ->.
  { by destruct (reverse (clist.cells item)). }
  simpl. by rewrite set_key_same.
Qed.

(** C4 at [count = min_int]: the list ["a"; "b"; "c"] holds one "b"; a
    negative count is to remove the last [min(|count|, #matches)]
    occurrences, here 1, that is to leave [remove_last 1 "b"]; [LRem]
    removes nothing and returns 0. *)
Theorem LRem_min_int_removes_nothing :
  occurrences (bytes_of_string "b") (elements abc "k") = 1%nat ∧
  (LRem abc "k" (bytes_of_string "b") min_int).2 = 0 ∧
  elements (LRem abc "k" (bytes_of_string "b") min_int).1 "k"
  = elements abc "k" ∧
  remove_last 1 (bytes_of_string "b") (elements abc "k")
  ≠ elements abc "k".
Proof.
  rewrite LRem_min_int. split_and!; try (vm_compute; reflexivity).
  vm_compute. discriminate.
Qed.

(** ** Trimming: [LTrim] *)

Section trim_facts.
Import clist.
Implicit Types (cs ps ele : list Element) (e : Element).

Lemma eid_lookup_inj cs (i j : nat) e e' :
  NoDup (eid <$> cs) → cs !! i = Some e → cs !! j = Some e' →
  eid e = eid e' → i = j.
Proof.
  intros Hnd Hi Hj Heq.
  apply (NoDup_lookup (eid <$> cs) i j (eid e)); [done| |].
  - by rewrite list_lookup_fmap, Hi.
  - by rewrite list_lookup_fmap, Hj, Heq.
Qed.

Lemma collect_until_spec cs (i : nat) e ele :
  NoDup (eid <$> cs) → cs !! i = Some e →
  collect_until (Some e) cs ele = Ok (ele ++ take i cs).
Proof.
  revert i ele. induction cs as [|c cs IH]; intros i ele Hnd Hi; [done|].
  cbn [collect_until ptr_eq]. destruct i as [|i]; simpl in Hi.
  - injection Hi as ->. rewrite bool_decide_eq_true_2 by done.
    by rewrite app_nil_r.
  - rewrite bool_decide_eq_false_2.
    + rewrite fmap_cons in Hnd. apply NoDup_cons in Hnd as [_ Hnd].
      rewrite (IH i) by done. by rewrite <- app_assoc.
    + intros Heq.
      by pose proof (eid_lookup_inj (c :: cs) 0 (S i) c e Hnd eq_refl Hi Heq).
Qed.

Lemma chain_from_spec cs (i : nat) e :
  NoDup (eid <$> cs) → cs !! i = Some e → chain_from (Some e) cs = drop i cs.
Proof.
  revert i. induction cs as [|c cs IH]; intros i Hnd Hi; [done|].
  cbn [chain_from chain_from_id]. destruct i as [|i]; simpl in Hi.
  - injection Hi as ->. by rewrite decide_True.
  - rewrite decide_False.
    + rewrite fmap_cons in Hnd. apply NoDup_cons in Hnd as [_ Hnd].
      by apply (IH i).
    + intros Heq.
      by pose proof (eid_lookup_inj (c :: cs) 0 (S i) c e Hnd eq_refl Hi Heq).
Qed.

Lemma copy_until_spec ps (n : nat) (newList : clist.List) :
  NoDup (eid <$> ps) → (n <= length ps)%nat →
  copy_until (ps !! n) ps newList
  = Ok (fold_left PushBack (Value <$> take n ps) newList).
Proof.
  revert n newList. induction ps as [|p ps IH]; intros n newList Hnd Hn.
  - by destruct n.
  - destruct n as [|n].
    + change ((p :: ps) !! 0%nat) with (Some p). cbn [copy_until ptr_eq].
      by rewrite bool_decide_eq_true_2.
    + change ((p :: ps) !! S n) with (ps !! n). cbn [copy_until].
      assert (ptr_eq (Some p) (ps !! n) = false) as ->.
      { destruct (ps !! n) as [q|] eqn:Hq; [|done]. simpl.
        apply bool_decide_eq_false_2. intros Heq.
        by pose proof (eid_lookup_inj (p :: ps) 0 (S n) p q Hnd eq_refl Hq Heq). }
      rewrite fmap_cons in Hnd. apply NoDup_cons in Hnd as [_ Hnd].
      rewrite IH by (simpl in Hn; done || lia). done.
Qed.

Lemma fold_PushBack (vs : list ByteSlice) (l : clist.List) :
  clist.wf l →
  values (fold_left PushBack vs l) = values l ++ vs ∧
  clist.wf (fold_left PushBack vs l).
Proof.
  revert l. induction vs as [|v vs IH]; intros l Hwf; simpl.
  - by rewrite app_nil_r.
  - destruct (IH (PushBack l v)) as [-> ?]; [by apply wf_PushBack|].
    by rewrite values_PushBack, <- app_assoc.
Qed.

Lemma fold_PushFront (vs : list ByteSlice) (l : clist.List) :
  clist.wf l →
  values (fold_left PushFront vs l) = reverse vs ++ values l ∧
  clist.wf (fold_left PushFront vs l).
Proof.
  revert l. induction vs as [|v vs IH]; intros l Hwf; simpl.
  - done.
  - destruct (IH (PushFront l v)) as [-> ?]; [by apply wf_PushFront|].
    by rewrite values_PushFront, reverse_cons, <- app_assoc.
Qed.

Lemma take_reverse {A : Type} (l : list A) (k : nat) :
  take k (reverse l) = reverse (drop (length l - k) l).
Proof.
  destruct (decide (k <= length l)%nat) as [Hle|Hgt].
  - rewrite <- (take_drop (length l - k) l) at 1.
    rewrite reverse_app. apply take_app_length'.
    rewrite length_reverse, length_drop. lia.
  - replace (length l - k)%nat with 0%nat by lia. rewrite drop_0.
    apply take_ge. rewrite length_reverse. lia.
Qed.

Lemma filter_none {A : Type} (P : A → Prop) `{!∀ x, Decision (P x)}
    (l : list A) :
  (∀ x, x ∈ l → ¬ P x) → filter P l = [].
Proof.
  induction l as [|x l IH]; intros HP; [done|].
  rewrite filter_cons_False by (apply HP; left).
  apply IH. intros y Hy. apply HP. by right.
Qed.

(** Removing what lies before and after the middle part leaves the middle
    part. *)
Lemma remove_outside (A B C : list Element) :
  NoDup (eid <$> A ++ B ++ C) →
  filter (λ c, eid c ∉ eid <$> A ++ reverse C) (A ++ B ++ C) = B.
Proof.
  intros Hnd. rewrite !fmap_app in Hnd.
  apply NoDup_app in Hnd as (_ & HAB & Hnd).
  apply NoDup_app in Hnd as (_ & HBC & _).
  rewrite !filter_app.
  rewrite (filter_none _ A), (filter_all _ B), (filter_none _ C).
  - simpl. apply app_nil_r.
  - intros x Hx Hn. apply Hn. rewrite fmap_app, fmap_reverse.
    apply elem_of_app. right. apply elem_of_reverse, list_elem_of_fmap.
    by exists x.
  - intros x Hx. rewrite fmap_app, fmap_reverse.
    intros [HA|HC]%elem_of_app.
    + apply (HAB (eid x) HA). apply elem_of_app. left.
      apply list_elem_of_fmap. by exists x.
    + rewrite elem_of_reverse in HC. apply (HBC (eid x)); [|exact HC].
      apply list_elem_of_fmap. by exists x.
  - intros x Hx Hn. apply Hn. rewrite fmap_app.
    apply elem_of_app. left. apply list_elem_of_fmap. by exists x.
Qed.

End trim_facts.

(** Each of the two strategies of [LTrim], run on the cells at positions
    [s] and [e], leaves the elements at positions [s..e] in their order: the
    first in a new list, the second in the old one. *)
Lemma trim_rebuild_spec (item : clist.List) (s e : Z) :
  clist.wf item → 0 <= s <= e → e < clist.Len item →
  ∃ l, trim_rebuild item (clist.cells item !! Z.to_nat s)
                         (clist.cells item !! Z.to_nat e) = Ok l ∧
       clist.values l = slice_of (clist.values item) s e ∧
       clist.wf l.
Proof.
  intros Hwf Hse He. unfold clist.Len in He.
  destruct (lookup_lt_is_Some_2 (clist.cells item) (Z.to_nat s))
    as [se Hs]; [lia|].
  destruct (lookup_lt_is_Some_2 (clist.cells item) (Z.to_nat e))
    as [ee Hee]; [lia|].
  rewrite Hs, Hee. unfold trim_rebuild. cbn [deref mbind result_bind].
  rewrite (Next_lookup item (Z.to_nat e)) by done.
  destruct Hwf as [Hnd Hlt].
  rewrite (chain_from_spec _ (Z.to_nat s)) by done.
  replace (clist.cells item !! S (Z.to_nat e))
    with (drop (Z.to_nat s) (clist.cells item) !! Z.to_nat (e + 1 - s))
    by (rewrite lookup_drop; f_equal; lia).
  rewrite copy_until_spec.
  - destruct (fold_PushBack
                (clist.Value <$> take (Z.to_nat (e + 1 - s))
                                      (drop (Z.to_nat s) (clist.cells item)))
                clist.New wf_New) as [Hvals Hwf'].
    eexists. split_and!; [reflexivity| |done].
    rewrite Hvals. unfold slice_of, clist.values. simpl.
    by rewrite fmap_take, fmap_drop.
  - eapply sublist_NoDup; [exact Hnd|]. apply fmap_sublist, sublist_drop.
  - rewrite length_drop. lia.
Qed.

Lemma trim_in_place_spec (item : clist.List) (s e : Z) :
  clist.wf item → 0 <= s <= e → e < clist.Len item →
  ∃ l, trim_in_place item (clist.cells item !! Z.to_nat s)
                          (clist.cells item !! Z.to_nat e) = Ok l ∧
       clist.values l = slice_of (clist.values item) s e ∧
       clist.wf l.
Proof.
  intros Hwf Hse He. unfold clist.Len in He.
  destruct (lookup_lt_is_Some_2 (clist.cells item) (Z.to_nat s))
    as [se Hs]; [lia|].
  destruct (lookup_lt_is_Some_2 (clist.cells item) (Z.to_nat e))
    as [ee Hee]; [lia|].
  rewrite Hs, Hee. unfold trim_in_place.
  pose proof Hwf as [Hnd Hlt].
  rewrite (collect_until_spec _ (Z.to_nat s)) by done.
  cbn [mbind result_bind app].
  rewrite (collect_until_spec _
             (length (clist.cells item) - S (Z.to_nat e))%nat).
  2:{ by rewrite fmap_reverse, reverse_Permutation. }
  2:{ rewrite reverse_lookup by lia. rewrite <- Hee. f_equal. lia. }
  cbn [mbind result_bind].
  eexists. split_and!; [reflexivity| |by apply wf_fold_Remove].
  unfold clist.values.
  destruct (cells_fold_Remove
              (take (Z.to_nat s) (clist.cells item) ++
               take (length (clist.cells item) - S (Z.to_nat e))
                    (reverse (clist.cells item))) item) as [-> _].
  rewrite take_reverse.
  replace (length (clist.cells item)
           - (length (clist.cells item) - S (Z.to_nat e)))%nat
    with (S (Z.to_nat e)) by lia.
  unfold slice_of. rewrite <- fmap_drop, <- fmap_take. f_equal.
  set (A := take (Z.to_nat s) (clist.cells item)).
  set (B := take (Z.to_nat (e + 1 - s)) (drop (Z.to_nat s) (clist.cells item))).
  set (C := drop (S (Z.to_nat e)) (clist.cells item)).
  assert (clist.cells item = A ++ B ++ C) as Hsplit.
  { subst A B C.
    rewrite <- (take_drop (Z.to_nat s) (clist.cells item)) at 1. f_equal.
    rewrite <- (take_drop (Z.to_nat (e + 1 - s))
                          (drop (Z.to_nat s) (clist.cells item))) at 1.
    f_equal. rewrite drop_drop. f_equal. lia. }
  rewrite Hsplit at 1. apply remove_outside. by rewrite <- Hsplit.
Qed.

(** C1. For a key whose list has length [L]: when the normalised range
    [[s, e]] (a negative bound offset by [L], [s] floored to 0, [e] capped to
    [L-1]) is a non-empty proper part of [[0, L-1]], [LTrim] returns [true]
    and the list then holds exactly the elements that were at positions
    [s..e], in their order; each of the two strategies, the rebuilt list and
    the removal in place, yields those elements. When the normalised range
    covers the whole list, [LTrim] returns [false] and changes nothing. *)
Theorem LTrim_spec (lis : List) (key : string) (start end_ : Z) :
  wf lis → in_range start → in_range end_ → LLen lis key <= max_int →
  let L := LLen lis key in
  let s := norm_start L start in
  let e := norm_end L end_ in
  (0 <= s <= e → e <= L - 1 → ¬ (s = 0 ∧ e = L - 1) →
   (∃ lis', LTrim lis key start end_ = Ok (lis', true) ∧
            elements lis' key = slice_of (elements lis key) s e ∧
            (∀ k, k ≠ key → record lis' !! k = record lis !! k) ∧
            wf lis') ∧
   (∀ item, at_key lis key = Some item →
      ∃ l1 l2,
        trim_rebuild item (clist.cells item !! Z.to_nat s)
                          (clist.cells item !! Z.to_nat e) = Ok l1 ∧
        trim_in_place item (clist.cells item !! Z.to_nat s)
                           (clist.cells item !! Z.to_nat e) = Ok l2 ∧
        clist.values l1 = slice_of (elements lis key) s e ∧
        clist.values l2 = slice_of (elements lis key) s e)) ∧
  (s = 0 → e = L - 1 → LTrim lis key start end_ = Ok (lis, false)).
Proof.
  intros Hwf Hs He Hmax L s e. subst L s e.
  unfold LLen, elements in *. unfold LTrim.
  destruct (at_key lis key) as [item|] eqn:Hitem.
  2:{ split; [|done]. intros. unfold norm_start, norm_end in *. lia. }
  pose proof (wf_at_key _ _ _ Hwf Hitem) as Hl.
  assert (0 <= clist.Len item) as Hnn by (unfold clist.Len; lia).
  destruct (Z.leb_spec (clist.Len item) 0) as [Hz|Hpos].
  { split; [|done]. intros. unfold norm_start, norm_end in *. lia. }
  rewrite handleIndex_norm by (try done; lia).
  set (s := norm_start (clist.Len item) start) in *.
  set (e := norm_end (clist.Len item) end_) in *.
  assert (sub (clist.Len item) 1 = clist.Len item - 1) as ->.
  { unfold sub.
    by rewrite wrap_small by (unfold in_range, min_int, max_int in *; lia). }
  split.
  - intros Hse HeL Hproper.
    destruct (trim_rebuild_spec item s e) as (l1 & Hr1 & Hv1 & Hw1);
      [done|done|lia|].
    destruct (trim_in_place_spec item s e) as (l2 & Hr2 & Hv2 & Hw2);
      [done|done|lia|].
    split; [|intros ? [= <-]; by exists l1, l2].
    assert ((s <=? 0) && (e >=? clist.Len item - 1) = false) as ->.
    { destruct (Z.leb_spec s 0); destruct (Z.geb_spec e (clist.Len item - 1));
        simpl; try done. lia. }
    assert ((s >? e) || (s >=? clist.Len item) = false) as ->.
    { destruct (Z.gtb_spec s e); destruct (Z.geb_spec s (clist.Len item));
        simpl; try done; lia. }
    rewrite !(index_absolute lis key item) by (try done; lia).
    cbn [mbind result_bind].
    destruct (add (sub e s) 1 <? shr1 (clist.Len item)).
    + rewrite Hr1. cbn [mbind result_bind]. eexists.
      split_and!; [reflexivity| | |by apply wf_set_key].
      * by rewrite at_key_set_key.
      * intros k Hne. by apply record_set_key_ne.
    + rewrite Hr2. cbn [mbind result_bind]. eexists.
      split_and!; [reflexivity| | |by apply wf_set_key].
      * by rewrite at_key_set_key.
      * intros k Hne. by apply record_set_key_ne.
  - intros Hs0 HeL.
    destruct (Z.leb_spec s 0); [|lia].
    destruct (Z.geb_spec e (clist.Len item - 1)); [|lia]. done.
Qed.

Lemma LTrim_spec_witness :
  ∃ lis', LTrim abc "k" 1 5 = Ok (lis', true) ∧
          elements lis' "k" = [bytes_of_string "b"; bytes_of_string "c"] ∧
          wf lis'.
Proof.
  assert (wf abc) as Hwf by (apply (bool_decide_unpack _); vm_compute; exact I).
  assert (in_range 1) as H1 by (vm_compute; split; discriminate).
  assert (in_range 5) as H5 by (vm_compute; split; discriminate).
  assert (LLen abc "k" <= max_int) as Hmax by (vm_compute; discriminate).
  destruct (LTrim_spec abc "k" 1 5 Hwf H1 H5 Hmax) as [Hproper _].
  destruct Hproper as [(lis' & Htrim & Hel & _ & Hwf') _].
  - vm_compute. split; discriminate.
  - vm_compute. discriminate.
  - vm_compute. intros [? ?]. discriminate.
  - exists lis'. split_and!; [exact Htrim|exact Hel|exact Hwf'].
Defined.

(** ** Pushing *)

Lemma push_spec (front : bool) (lis : List) (key : string)
    (val : list ByteSlice) :
  wf lis →
  elements (push front lis key val).1 key
  = (if front then reverse val ++ elements lis key
     else elements lis key ++ val) ∧
  (∀ k, k ≠ key → record (push front lis key val).1 !! k = record lis !! k) ∧
  (push front lis key val).2 = LLen (push front lis key val).1 key ∧
  wf (push front lis key val).1.
Proof.
  intros Hwf. unfold push, elements, LLen. cbn [fst snd].
  rewrite !at_key_set_key.
  set (item := match at_key lis key with
               | Some item => item
               | None => clist.New
               end).
  assert (clist.wf item) as Hitem.
  { subst item. destruct (at_key lis key) eqn:E;
      [by eapply wf_at_key|apply wf_New]. }
  assert (clist.values item = match at_key lis key with
                              | Some item => clist.values item
                              | None => []
                              end) as <-.
  { subst item. by destruct (at_key lis key). }
  split_and!.
  - destruct front.
    + by apply fold_PushFront.
    + by apply fold_PushBack.
  - intros k Hne. rewrite record_set_key_ne by done.
    destruct (at_key lis key); [done|]. by rewrite record_set_key_ne.
  - done.
  - apply wf_set_key.
    + destruct (at_key lis key); [done|]. by apply wf_set_key.
    + destruct front; [by apply fold_PushFront|by apply fold_PushBack].
Qed.

Lemma elements_record_ne (lis lis' : List) (k : string) :
  record lis' !! k = record lis !! k → elements lis' k = elements lis k.
Proof. unfold elements, at_key. by intros ->. Qed.

(** ** The dump iterator and its replay *)

Lemma string_of_bytes_of_string (key : string) :
  string_of_bytes (bytes_of_string key) = key.
Proof. apply String.string_of_list_byte_of_string. Qed.

(** Replaying the records of one list appends its values under the key. *)
Lemma dump_list_replay (key : string) (ps : list clist.Element) (idx : List) :
  wf idx →
  ∃ idx', dump_list replay (bytes_of_string key) ps idx = (idx', None) ∧
          elements idx' key = elements idx key ++ (clist.Value <$> ps) ∧
          (∀ k, k ≠ key → elements idx' k = elements idx k) ∧
          wf idx'.
Proof.
  revert idx. induction ps as [|p ps IH]; intros idx Hwf.
  - exists idx. simpl. by rewrite app_nil_r.
  - cbn [dump_list]. unfold replay at 1, NewEntryNoExtra. cbn [Key EntryValue].
    rewrite string_of_bytes_of_string.
    destruct (push_spec false idx key [clist.Value p] Hwf)
      as (Hel & Hframe & _ & Hwf1).
    destruct (IH _ Hwf1) as (idx' & Hdump & Hel' & Hframe' & Hwf').
    exists idx'. unfold RPush. split_and!; [done| | |done].
    + rewrite Hel', Hel, fmap_cons. by rewrite <- app_assoc.
    + intros k Hne. rewrite Hframe' by done.
      apply elements_record_ne. by apply Hframe.
Qed.

Lemma dump_entries_replay (entries : list (string * option clist.List))
    (idx : List) :
  wf idx →
  Forall (λ kl, is_Some kl.2) entries → NoDup entries.*1 →
  ∃ idx', dump_entries replay entries idx = Ok (idx', None) ∧
          (∀ key, elements idx' key
                  = elements idx key
                    ++ elements (mkIndex (list_to_map entries)) key) ∧
          wf idx'.
Proof.
  revert idx. induction entries as [|[k l] entries IH]; intros idx Hwf Hsome Hnd.
  - exists idx. split_and!; [done| |done]. intros key.
    unfold elements at 3, at_key. simpl. rewrite lookup_empty. simpl.
    by rewrite app_nil_r.
  - inversion Hsome as [|? ? [item Hl] Hsome']; subst. simpl in Hl. subst l.
    rewrite fmap_cons in Hnd. apply NoDup_cons in Hnd as [Hk Hnd].
    cbn [dump_entries deref mbind result_bind].
    destruct (dump_list_replay k (clist.cells item) idx Hwf)
      as (idx1 & -> & Hel1 & Hframe1 & Hwf1).
    destruct (IH idx1 Hwf1 Hsome' Hnd) as (idx' & Hdump & Hel' & Hwf').
    exists idx'. split_and!; [done| |done].
    intros key. rewrite Hel'.
    unfold elements at 2 4, at_key. cbn [record].
    rewrite list_to_map_cons.
    destruct (decide (k = key)) as [<-|Hne].
    + rewrite lookup_insert_eq, not_elem_of_list_to_map_1 by done.
      simpl. by rewrite app_nil_r.
    + rewrite lookup_insert_ne by done. by rewrite Hframe1.
Qed.

(** X14. The round trip on an index without [nil] entries: whatever the order of
    the entries, [DumpIterate] with the replaying callback on a new index
    returns no error and an index with the same logical list under every
    key. *)
Lemma DumpIterate_replay (lis : List) :
  no_nil_entry lis →
  (∃ out, DumpIterate lis replay New out) ∧
  (∀ out, DumpIterate lis replay New out →
          ∃ lis', out = Ok (lis', None) ∧
                  ∀ key, elements lis' key = elements lis key).
Proof.
  intros Hnil. split.
  - eexists. by exists (map_to_list (record lis)).
  - intros out (entries & Hperm & <-).
    destruct (dump_entries_replay entries New wf_New_index)
      as (lis' & -> & Hel & _).
    + rewrite Hperm. apply map_Forall_to_list in Hnil.
      eapply Forall_impl; [exact Hnil|]. by intros [k l].
    + rewrite Hperm. apply NoDup_fst_map_to_list.
    + exists lis'. split; [done|]. intros key. rewrite Hel.
      rewrite (list_to_map_proper entries (map_to_list (record lis)));
        [|rewrite Hperm; apply NoDup_fst_map_to_list|done].
      rewrite list_to_map_to_list. by destruct lis.
Qed.

(** [LTrim] to an empty range leaves a [nil] entry; on such an index
    [DumpIterate] calls [Front] on the [nil] list and panics. *)
Lemma dump_entries_nil_entry {H : Type} (fn : Entry → H → H * option error)
    (key : string) (h : H) :
  dump_entries fn [(key, None)] h = Panic.
Proof. reflexivity. Qed.

(** C8 on a reachable index with a [nil] entry: after
    [RPush("k", "a", "b", "c")] and [LTrim("k", 2, 1)] the index is
    [emptied], every logical list of which is empty, and every run of
    [DumpIterate] on it panics, whatever the callback: no replayed index
    comes out. *)
Theorem DumpIterate_panics_after_trim :
  LTrim abc "k" 2 1 = Ok (emptied, true) ∧
  (∀ key, elements emptied key = []) ∧
  ∀ (H : Type) (fn : Entry → H → H * option error) (h : H)
    (out : result (H * option error)),
    DumpIterate emptied fn h out → out = Panic.
Proof.
  split_and!.
  - vm_compute. reflexivity.
  - intros key. unfold elements, at_key, emptied. cbn [record].
    destruct (decide ("k" = key)) as [<-|Hne].
    + by rewrite lookup_insert_eq.
    + by rewrite lookup_insert_ne, lookup_empty.
  - intros H fn h out (entries & Hperm & <-).
    unfold emptied in Hperm. cbn [record] in Hperm.
    rewrite insert_empty, map_to_list_singleton in Hperm.
    apply Permutation_singleton_r in Hperm as ->.
    apply dump_entries_nil_entry.
Qed.

(** ** Well-formedness is an invariant

    Every operation keeps the lists of the index well formed, so every
    index the operations produce from [New] is well formed. *)

Lemma wf_SetValue (l : clist.List) (e : clist.Element) (v : ByteSlice) :
  clist.wf l → clist.wf (clist.SetValue l e v).
Proof.
  intros [Hnd Hlt].
  assert (clist.eid <$> clist.cells (clist.SetValue l e v)
          = clist.eid <$> clist.cells l) as Hids.
  { unfold clist.SetValue. simpl. rewrite <- list_fmap_compose.
    apply list_fmap_ext. intros i c _. simpl. by case_decide. }
  split.
  - by rewrite Hids.
  - unfold clist.SetValue. simpl. rewrite Forall_fmap.
    eapply Forall_impl; [exact Hlt|]. intros c Hc. simpl. by case_decide.
Qed.

Lemma wf_copy_until (stop : clist.ptr) (ps : list clist.Element)
    (newList l : clist.List) :
  clist.wf newList → copy_until stop ps newList = Ok l → clist.wf l.
Proof.
  revert newList.
  induction ps as [|p ps IH]; intros newList Hwf; cbn [copy_until].
  - destruct (ptr_eq None stop); [|done]. by intros [= <-].
  - destruct (ptr_eq (Some p) stop); [by intros [= <-]|].
    apply IH. by apply wf_PushBack.
Qed.

Lemma wf_pop (front : bool) (lis lis' : List) key v :
  wf lis → pop front lis key = Ok (lis', v) → wf lis'.
Proof.
  intros Hwf. unfold pop.
  destruct (at_key lis key) as [item|] eqn:Hitem; [|by intros [= <- _]].
  destruct (clist.Len item >? 0); [|by intros [= <- _]].
  destruct (if front then clist.Front item else clist.Back item) as [e|];
    [|done].
  simpl. intros [= <- _]. apply wf_set_key; [done|].
  apply wf_Remove. by eapply wf_at_key.
Qed.

Lemma wf_LInsert (lis lis' : List) key option pivot val n :
  wf lis → LInsert lis key option pivot val = Ok (lis', n) → wf lis'.
Proof.
  intros Hwf. unfold LInsert.
  destruct (find lis key pivot) as [e|]; [|by intros [= <- _]].
  destruct (at_key lis key) as [item|] eqn:Hitem; [|done].
  simpl. intros [= <- _]. apply wf_set_key; [done|].
  pose proof (wf_at_key _ _ _ Hwf Hitem) as Hl.
  destruct (option =? Before)%N, (option =? After)%N;
    auto using wf_InsertBefore, wf_InsertAfter.
Qed.

Lemma wf_LSet (lis lis' : List) key idx val ok :
  wf lis → LSet lis key idx val = Ok (lis', ok) → wf lis'.
Proof.
  intros Hwf. unfold LSet.
  destruct (index lis key idx) as [[e|]|]; simpl; [|by intros [= <- _]|done].
  destruct (at_key lis key) as [item|] eqn:Hitem; [|done].
  simpl. intros [= <- _]. apply wf_set_key; [done|].
  apply wf_SetValue. by eapply wf_at_key.
Qed.

Lemma wf_LTrim (lis lis' : List) key start end_ changed :
  wf lis → LTrim lis key start end_ = Ok (lis', changed) → wf lis'.
Proof.
  intros Hwf. unfold LTrim.
  destruct (at_key lis key) as [item|] eqn:Hitem; [|by intros [= <- _]].
  pose proof (wf_at_key _ _ _ Hwf Hitem) as Hl.
  destruct (clist.Len item <=? 0); [by intros [= <- _]|].
  destruct (handleIndex (clist.Len item) start end_) as [s e].
  destruct ((s <=? 0) && (e >=? sub (clist.Len item) 1));
    [by intros [= <- _]|].
  destruct ((s >? e) || (s >=? clist.Len item)).
  { intros [= <- _]. by apply wf_set_key_nil. }
  destruct (index lis key s) as [startEle|]; [|done].
  destruct (index lis key e) as [endEle|]; [|done].
  cbn [mbind result_bind].
  destruct (add (sub e s) 1 <? shr1 (clist.Len item)).
  - unfold trim_rebuild. destruct endEle as [ee|]; [|done].
    cbn [deref mbind result_bind].
    destruct (copy_until _ _ _) as [newList|] eqn:Hcopy; [|done].
    cbn [mbind result_bind]. intros [= <- _]. apply wf_set_key; [done|].
    eapply wf_copy_until; [apply wf_New|exact Hcopy].
  - unfold trim_in_place.
    destruct (collect_until startEle _ _) as [ele|]; [|done].
    cbn [mbind result_bind].
    destruct (collect_until endEle _ _) as [ele'|]; [|done].
    cbn [mbind result_bind]. intros [= <- _]. apply wf_set_key; [done|].
    by apply wf_fold_Remove.
Qed.

Lemma wf_LClear (lis : List) key : wf lis → wf (LClear lis key).
Proof. intros Hwf. unfold wf, LClear. simpl. by apply map_Forall_delete. Qed.

Lemma wf_LRem (lis : List) key val count :
  wf lis → wf (LRem lis key val count).1.
Proof.
  intros Hwf. unfold LRem.
  destruct (at_key lis key) as [item|] eqn:Hitem; [|done].
  cbn [fst]. apply wf_set_key; [done|].
  apply wf_fold_Remove. by eapply wf_at_key.
Qed.

Lemma reachable_wf (lis : List) : reachable lis → wf lis.
Proof.
  induction 1.
  - apply wf_New_index.
  - by apply push_spec.
  - by eapply wf_pop.
  - by apply wf_LRem.
  - by eapply wf_LInsert.
  - by eapply wf_LSet.
  - by eapply wf_LTrim.
  - by apply wf_LClear.
Qed.

(** ** The scenarios of the specification *)

Example scenario_range :
  LRange abc "k" 0 (-1)
  = [bytes_of_string "a"; bytes_of_string "b"; bytes_of_string "c"].
Proof. vm_compute. reflexivity. Qed.

Example scenario_index : LIndex abc "k" (-1) = Ok (bytes_of_string "c").
Proof. vm_compute. reflexivity. Qed.

Example scenario_rem :
  (LRem abc "k" (bytes_of_string "b") 0).2 = 1 ∧
  LLen (LRem abc "k" (bytes_of_string "b") 0).1 "k" = 2.
Proof. vm_compute. done. Qed.

Example scenario_trim :
  ∃ lis', LTrim abc "k" 0 0 = Ok (lis', true) ∧
          elements lis' "k" = [bytes_of_string "a"].
Proof. eexists. vm_compute. done. Qed.

Example scenario_empty_key :
  LLen New "k" = 0 ∧
  LPop New "k" = Ok (New, nil_bytes) ∧
  LIndex New "k" 0 = Ok nil_bytes ∧
  LKeyExists New "k" = false.
Proof. vm_compute. done. Qed.

(** * Further properties of the operations *)

(** ** Pushing and popping *)

Lemma values_fold_PushBack (vs : list ByteSlice) (l : clist.List) :
  clist.values (fold_left clist.PushBack vs l) = clist.values l ++ vs.
Proof.
  revert l. induction vs as [|v vs IH]; intros l; simpl.
  - by rewrite app_nil_r.
  - by rewrite IH, values_PushBack, <- app_assoc.
Qed.

Lemma values_fold_PushFront (vs : list ByteSlice) (l : clist.List) :
  clist.values (fold_left clist.PushFront vs l) = reverse vs ++ clist.values l.
Proof.
  revert l. induction vs as [|v vs IH]; intros l; simpl.
  - done.
  - by rewrite IH, values_PushFront, reverse_cons, <- app_assoc.
Qed.

(** X1. [RPush] puts its values after the elements of the key, in argument
    order; [LPush] puts them before, one at a time, so the last argument
    becomes the head. Both return the new length, the old one plus the
    number of values, and the key exists afterwards. *)
Theorem push_order_and_length (lis : List) (key : string)
    (val : list ByteSlice) :
  elements (RPush lis key val).1 key = elements lis key ++ val ∧
  elements (LPush lis key val).1 key = reverse val ++ elements lis key ∧
  (∀ front,
     (push front lis key val).2 = LLen lis key + Z.of_nat (length val) ∧
     LLen (push front lis key val).1 key = (push front lis key val).2 ∧
     LKeyExists (push front lis key val).1 key = true).
Proof.
  assert (∀ front,
            elements (push front lis key val).1 key
            = (if front then reverse val ++ elements lis key
               else elements lis key ++ val)) as Hel.
  { intros front. unfold push, elements. cbn [fst].
    rewrite at_key_set_key.
    destruct front; [rewrite values_fold_PushFront
                    |rewrite values_fold_PushBack];
      by destruct (at_key lis key). }
  split_and!.
  - apply (Hel false).
  - apply (Hel true).
  - intros front.
    assert (LLen (push front lis key val).1 key = (push front lis key val).2)
      as Hret.
    { unfold push, LLen. cbn [fst snd]. by rewrite at_key_set_key. }
    split_and!; [|exact Hret|apply LKeyExists_set_key].
    rewrite <- Hret, !LLen_elements, Hel.
    destruct front; rewrite length_app, ?length_reverse; lia.
Qed.

Lemma Remove_head (l : clist.List) (c : clist.Element)
    (cs : list clist.Element) :
  clist.wf l → clist.cells l = c :: cs →
  clist.cells (clist.Remove l c) = cs.
Proof.
  intros [Hnd _] Hcells. unfold clist.Remove. simpl. rewrite Hcells in *.
  rewrite fmap_cons in Hnd. apply NoDup_cons in Hnd as [Hc _].
  rewrite filter_cons_False by (intros H; by apply H).
  apply filter_all. intros x Hx Heq. apply Hc. rewrite <- Heq.
  apply list_elem_of_fmap. by exists x.
Qed.

Lemma Remove_last (l : clist.List) (c : clist.Element)
    (cs : list clist.Element) :
  clist.wf l → clist.cells l = cs ++ [c] →
  clist.cells (clist.Remove l c) = cs.
Proof.
  intros [Hnd _] Hcells. unfold clist.Remove. simpl. rewrite Hcells in *.
  rewrite fmap_app in Hnd. apply NoDup_app in Hnd as (_ & Hc & _).
  rewrite filter_app, filter_cons_False by (intros H; by apply H).
  rewrite filter_nil, app_nil_r.
  apply filter_all. intros x Hx Heq.
  apply (Hc (clist.eid x)).
  - apply list_elem_of_fmap. by exists x.
  - rewrite Heq. simpl. left.
Qed.

Lemma pop_front_cons (lis : List) (key : string) (x : ByteSlice)
    (rest : list ByteSlice) :
  wf lis → elements lis key = x :: rest →
  ∃ lis', pop true lis key = Ok (lis', x) ∧
          elements lis' key = rest ∧
          (∀ k, k ≠ key → record lis' !! k = record lis !! k) ∧
          wf lis'.
Proof.
  intros Hwf Hel. unfold elements in Hel. unfold pop.
  destruct (at_key lis key) as [item|] eqn:Hitem; [|done].
  pose proof (wf_at_key _ _ _ Hwf Hitem) as Hl.
  unfold clist.values in Hel.
  apply fmap_cons_inv in Hel as (c & cs & -> & -> & Hcells).
  unfold clist.Len, clist.Front. rewrite Hcells. cbn [head length].
  rewrite (proj2 (Z.gtb_lt _ _)) by lia. cbn [deref mbind result_bind].
  eexists. split_and!; [reflexivity| | |].
  - rewrite elements_set_key. unfold clist.values.
    by rewrite (Remove_head item c cs).
  - intros k Hne. by apply record_set_key_ne.
  - by apply wf_set_key, wf_Remove.
Qed.

Lemma pop_back_snoc (lis : List) (key : string) (x : ByteSlice)
    (rest : list ByteSlice) :
  wf lis → elements lis key = rest ++ [x] →
  ∃ lis', pop false lis key = Ok (lis', x) ∧
          elements lis' key = rest ∧
          (∀ k, k ≠ key → record lis' !! k = record lis !! k) ∧
          wf lis'.
Proof.
  intros Hwf Hel. unfold elements in Hel. unfold pop.
  destruct (at_key lis key) as [item|] eqn:Hitem; [|by destruct rest].
  pose proof (wf_at_key _ _ _ Hwf Hitem) as Hl.
  unfold clist.values in Hel.
  apply fmap_app_inv in Hel as (cs & cl & -> & Hx & Hcells).
  symmetry in Hx. apply fmap_cons_inv in Hx as (c & cn & -> & Hn & ->).
  symmetry in Hn. apply fmap_nil_inv in Hn as ->.
  unfold clist.Len, clist.Back. rewrite Hcells, last_snoc, length_app.
  cbn [length]. rewrite (proj2 (Z.gtb_lt _ _)) by lia.
  cbn [deref mbind result_bind].
  eexists. split_and!; [reflexivity| | |].
  - rewrite elements_set_key. unfold clist.values.
    by rewrite (Remove_last item c cs).
  - intros k Hne. by apply record_set_key_ne.
  - by apply wf_set_key, wf_Remove.
Qed.

(** X2. On a non-empty list [LPop] returns the head and [RPop] the tail
    element; the other elements stay in their order, the length drops by
    one and no other key is touched. *)
Theorem pop_takes_end (lis : List) (key : string) (x : ByteSlice)
    (rest : list ByteSlice) :
  wf lis →
  (elements lis key = x :: rest →
   ∃ lis', LPop lis key = Ok (lis', x) ∧
           elements lis' key = rest ∧
           LLen lis' key = LLen lis key - 1 ∧
           (∀ k, k ≠ key → record lis' !! k = record lis !! k)) ∧
  (elements lis key = rest ++ [x] →
   ∃ lis', RPop lis key = Ok (lis', x) ∧
           elements lis' key = rest ∧
           LLen lis' key = LLen lis key - 1 ∧
           (∀ k, k ≠ key → record lis' !! k = record lis !! k)).
Proof.
  intros Hwf. split; intros Hel.
  - destruct (pop_front_cons lis key x rest Hwf Hel)
      as (lis' & Hpop & Hel' & Hframe & _).
    exists lis'. split_and!; try done.
    rewrite !LLen_elements, Hel, Hel'. simpl. lia.
  - destruct (pop_back_snoc lis key x rest Hwf Hel)
      as (lis' & Hpop & Hel' & Hframe & _).
    exists lis'. split_and!; try done.
    rewrite !LLen_elements, Hel, Hel', length_app. simpl. lia.
Qed.

Lemma pop_takes_end_witness :
  (∃ lis', LPop abc "k" = Ok (lis', bytes_of_string "a") ∧
           elements lis' "k" = [bytes_of_string "b"; bytes_of_string "c"]) ∧
  (∃ lis', RPop abc "k" = Ok (lis', bytes_of_string "c") ∧
           elements lis' "k" = [bytes_of_string "a"; bytes_of_string "b"]).
Proof.
  assert (wf abc) as Hwf by (apply (bool_decide_unpack _); vm_compute; exact I).
  split.
  - destruct (pop_takes_end abc "k" (bytes_of_string "a")
                [bytes_of_string "b"; bytes_of_string "c"] Hwf) as [Hl _].
    destruct Hl as (lis' & Hpop & Hel & _); [vm_compute; reflexivity|].
    by exists lis'.
  - destruct (pop_takes_end abc "k" (bytes_of_string "c")
                [bytes_of_string "a"; bytes_of_string "b"] Hwf) as [_ Hr].
    destruct Hr as (lis' & Hpop & Hel & _); [vm_compute; reflexivity|].
    by exists lis'.
Defined.

(** X3. A pop undoes the push at the same end: after [LPush] (or [RPush])
    of the values [vs] followed by [v], [LPop] (or [RPop]) returns [v], the
    last value pushed, and leaves the list as the push of [vs] alone would;
    the logical lists of the other keys are as before the push. *)
Theorem push_then_pop (lis : List) (key : string) (vs : list ByteSlice)
    (v : ByteSlice) :
  wf lis →
  (∃ lis', LPop (LPush lis key (vs ++ [v])).1 key = Ok (lis', v) ∧
           elements lis' key = reverse vs ++ elements lis key ∧
           ∀ k, k ≠ key → elements lis' k = elements lis k) ∧
  (∃ lis', RPop (RPush lis key (vs ++ [v])).1 key = Ok (lis', v) ∧
           elements lis' key = elements lis key ++ vs ∧
           ∀ k, k ≠ key → elements lis' k = elements lis k).
Proof.
  intros Hwf. split.
  - destruct (push_spec true lis key (vs ++ [v]) Hwf)
      as (Hel & Hframe & _ & Hwf1).
    rewrite reverse_app in Hel. change (reverse [v]) with [v] in Hel.
    destruct (pop_front_cons _ key v (reverse vs ++ elements lis key) Hwf1 Hel)
      as (lis' & Hpop & Hel' & Hframe' & _).
    exists lis'. split_and!; [exact Hpop|exact Hel'|].
    intros k Hne. apply elements_record_ne.
    rewrite Hframe' by done. by apply Hframe.
  - destruct (push_spec false lis key (vs ++ [v]) Hwf)
      as (Hel & Hframe & _ & Hwf1).
    rewrite app_assoc in Hel.
    destruct (pop_back_snoc _ key v (elements lis key ++ vs) Hwf1 Hel)
      as (lis' & Hpop & Hel' & Hframe' & _).
    exists lis'. split_and!; [exact Hpop|exact Hel'|].
    intros k Hne. apply elements_record_ne.
    rewrite Hframe' by done. by apply Hframe.
Qed.

Lemma push_then_pop_witness :
  (∃ lis', LPop (LPush abc "k" ([bytes_of_string "x"] ++ [bytes_of_string "y"])).1
                "k" = Ok (lis', bytes_of_string "y") ∧
           elements lis' "k"
           = reverse [bytes_of_string "x"] ++ elements abc "k") ∧
  (∃ lis', RPop (RPush abc "k" ([bytes_of_string "x"] ++ [bytes_of_string "y"])).1
                "k" = Ok (lis', bytes_of_string "y") ∧
           elements lis' "k" = elements abc "k" ++ [bytes_of_string "x"]).
Proof.
  assert (wf abc) as Hwf by (apply (bool_decide_unpack _); vm_compute; exact I).
  destruct (push_then_pop abc "k" [bytes_of_string "x"] (bytes_of_string "y")
              Hwf) as [(l1 & H1 & E1 & _) (l2 & H2 & E2 & _)].
  split; [by exists l1|by exists l2].
Defined.

(** ** Overwriting an element: [LSet] *)

Lemma index_valid (lis : List) (key : string) (item : clist.List) (idx : Z) :
  wf lis → at_key lis key = Some item → clist.Len item <= max_int →
  in_range idx →
  0 <= (if idx <? 0 then idx + clist.Len item else idx) < clist.Len item →
  index lis key idx
  = Ok (clist.cells item
          !! Z.to_nat (if idx <? 0 then idx + clist.Len item else idx)).
Proof.
  intros Hwf Hitem Hlen Hr Hi. destruct (Z.ltb_spec idx 0).
  - by apply index_negative; try lia.
  - by apply index_absolute.
Qed.

Lemma LIndex_elements (lis : List) (key : string) (idx : Z) (x : ByteSlice) :
  wf lis → in_range idx → LLen lis key <= max_int →
  0 <= (if idx <? 0 then idx + LLen lis key else idx) →
  elements lis key
    !! Z.to_nat (if idx <? 0 then idx + LLen lis key else idx) = Some x →
  LIndex lis key idx = Ok x.
Proof.
  intros Hwf Hr Hmax Hnn Hx. unfold LLen, elements, LIndex in *.
  destruct (at_key lis key) as [item|] eqn:Hitem; [|done].
  pose proof (lookup_lt_Some _ _ _ Hx) as Hlt.
  unfold clist.values in Hlt, Hx. rewrite length_fmap in Hlt.
  rewrite (index_valid lis key item) by (try done; unfold clist.Len in *; lia).
  rewrite list_lookup_fmap in Hx.
  destruct (clist.cells item !! _) as [e|]; simplify_eq/=. done.
Qed.

Lemma values_SetValue (l : clist.List) (n : nat) (e : clist.Element)
    (v : ByteSlice) :
  clist.wf l → clist.cells l !! n = Some e →
  clist.values (clist.SetValue l e v) = <[n := v]> (clist.values l).
Proof.
  intros [Hnd _] He. unfold clist.values, clist.SetValue. simpl.
  apply list_eq. intros i. rewrite !list_lookup_fmap.
  destruct (decide (i = n)) as [->|Hne].
  - rewrite He. simpl. rewrite decide_True by done. simpl.
    rewrite list_lookup_insert_eq; [done|].
    rewrite length_fmap. by eapply lookup_lt_Some.
  - rewrite list_lookup_insert_ne by done. rewrite list_lookup_fmap.
    destruct (clist.cells l !! i) as [c|] eqn:Hc; [|done]. simpl.
    rewrite decide_False; [done|]. intros Heq.
    by pose proof (eid_lookup_inj _ i n c e Hnd Hc He Heq).
Qed.

(** X4. [LSet] at an index whose absolute offset [i] (a negative index is
    offset by the length) lies in the list returns [true] and overwrites
    exactly the element at position [i]: the length and every other element
    and key stay, and [LIndex] at the same index then returns the new value.
    At any other index, and on a key without a list, it returns [false] and
    changes nothing. *)
Theorem LSet_spec (lis : List) (key : string) (idx : Z) (val : ByteSlice) :
  wf lis → in_range idx → LLen lis key <= max_int →
  let i := if idx <? 0 then idx + LLen lis key else idx in
  (0 <= i < LLen lis key →
   ∃ lis', LSet lis key idx val = Ok (lis', true) ∧
           elements lis' key = <[Z.to_nat i := val]> (elements lis key) ∧
           LLen lis' key = LLen lis key ∧
           LIndex lis' key idx = Ok val ∧
           (∀ k, k ≠ key → record lis' !! k = record lis !! k)) ∧
  (¬ (0 <= i < LLen lis key) → LSet lis key idx val = Ok (lis, false)).
Proof.
  intros Hwf Hr Hmax i. subst i. split.
  - intros Hi.
    assert (∃ lis', LSet lis key idx val = Ok (lis', true) ∧
                    elements lis' key
                    = <[Z.to_nat (if idx <? 0 then idx + LLen lis key else idx)
                        := val]> (elements lis key) ∧
                    (∀ k, k ≠ key → record lis' !! k = record lis !! k) ∧
                    wf lis') as (lis' & Hset & Hel & Hframe & Hwf').
    { unfold LLen, elements, LSet in *.
      destruct (at_key lis key) as [item|] eqn:Hitem; [|lia].
      pose proof (wf_at_key _ _ _ Hwf Hitem) as Hl.
      rewrite (index_valid lis key item) by done.
      destruct (lookup_lt_is_Some_2 (clist.cells item)
                  (Z.to_nat (if idx <? 0 then idx + clist.Len item else idx)))
        as [e He]; [unfold clist.Len in *; lia|].
      rewrite He. cbn [mbind result_bind deref].
      eexists. split_and!; [reflexivity| | |].
      - rewrite at_key_set_key. by apply values_SetValue.
      - intros k Hne. by apply record_set_key_ne.
      - by apply wf_set_key, wf_SetValue. }
    assert (LLen lis' key = LLen lis key) as Hlen.
    { by rewrite !LLen_elements, Hel, length_insert. }
    exists lis'. split_and!; try done.
    apply LIndex_elements; try done; rewrite Hlen; try lia.
    rewrite Hel. apply list_lookup_insert_eq.
    pose proof (LLen_elements lis key). lia.
  - intros Hout. unfold LLen, LSet in *.
    destruct (at_key lis key) as [item|] eqn:Hitem.
    + by rewrite (index_outside lis key item).
    + by rewrite index_no_list.
Qed.

Lemma LSet_spec_witness :
  (∃ lis', LSet abc "k" (-1) (bytes_of_string "z") = Ok (lis', true) ∧
           elements lis' "k"
           = [bytes_of_string "a"; bytes_of_string "b"; bytes_of_string "z"] ∧
           LIndex lis' "k" (-1) = Ok (bytes_of_string "z")) ∧
  LSet abc "k" 3 (bytes_of_string "z") = Ok (abc, false).
Proof.
  assert (wf abc) as Hwf by (apply (bool_decide_unpack _); vm_compute; exact I).
  assert (LLen abc "k" <= max_int) as Hmax by (vm_compute; discriminate).
  split.
  - destruct (LSet_spec abc "k" (-1) (bytes_of_string "z") Hwf) as [Hin _];
      [vm_compute; split; discriminate|exact Hmax|].
    destruct Hin as (lis' & Hset & Hel & _ & Hidx & _);
      [vm_compute; split; [discriminate|reflexivity]|].
    exists lis'. split_and!; [exact Hset|exact Hel|exact Hidx].
  - destruct (LSet_spec abc "k" 3 (bytes_of_string "z") Hwf) as [_ Hout];
      [vm_compute; split; discriminate|exact Hmax|].
    apply Hout. vm_compute. intros [_ H]. discriminate H.
Defined.

(** ** Ranges and trimming together *)

Lemma LRange_slice (lis : List) (key : string) (start end_ : Z) :
  in_range start → in_range end_ → LLen lis key <= max_int →
  LRange lis key start end_
  = slice_of (elements lis key)
             (norm_start (LLen lis key) start) (norm_end (LLen lis key) end_).
Proof.
  intros Hs He Hmax. unfold LRange, LLen, elements in *.
  destruct (at_key lis key) as [item|] eqn:Hitem;
    [|by rewrite slice_of_nil].
  pose proof (norm_start_bounds (clist.Len item) start) as Hs0.
  destruct (Z.leb_spec (clist.Len item) 0) as [Hz|Hpos].
  { rewrite slice_of_empty; [done|]. right. rewrite <- Len_values. lia. }
  rewrite handleIndex_norm by (try done; lia).
  set (s := norm_start (clist.Len item) start) in *.
  set (e := norm_end (clist.Len item) end_) in *.
  destruct (Z.gtb_spec s e) as [Hgt|Hle]; simpl.
  { rewrite slice_of_empty; [done|]. left. lia. }
  destruct (Z.geb_spec s (clist.Len item)) as [Hge|Hlt]; simpl.
  { rewrite slice_of_empty; [done|]. right. rewrite <- Len_values. lia. }
  destruct ((e <=? shr1 (clist.Len item))
            || (sub e (shr1 (clist.Len item))
                <? sub (shr1 (clist.Len item)) s)).
  - by apply LRange_scan_forward.
  - by apply (LRange_scan_backward item s e).
Qed.

(** X5. The range from 0 to -1, and the range from 0 to the length minus
    one, are the whole logical list, head to tail, and [LLen] is the number
    of elements they return. *)
Theorem LRange_whole_list (lis : List) (key : string) :
  LLen lis key <= max_int →
  LRange lis key 0 (-1) = elements lis key ∧
  LRange lis key 0 (LLen lis key - 1) = elements lis key ∧
  LLen lis key = Z.of_nat (length (LRange lis key 0 (-1))).
Proof.
  intros Hmax.
  pose proof (LLen_elements lis key) as HL.
  assert (in_range 0) as H0 by (vm_compute; split; discriminate).
  assert (in_range (-1)) as H1 by (vm_compute; split; discriminate).
  assert (in_range (LLen lis key - 1)) as H2
    by (unfold in_range, min_int, max_int in *; lia).
  assert (LRange lis key 0 (-1) = elements lis key) as Hall.
  { rewrite LRange_slice by done. unfold norm_start, norm_end. simpl.
    replace (Z.min (LLen lis key - 1) (-1 + LLen lis key))
      with (Z.of_nat (length (elements lis key)) - 1) by lia.
    replace (Z.max 0 0) with 0 by lia. apply slice_of_all. }
  split_and!.
  - exact Hall.
  - rewrite LRange_slice by done. unfold norm_start, norm_end.
    destruct (Z.ltb_spec (LLen lis key - 1) 0).
    + replace (Z.min (LLen lis key - 1) (LLen lis key - 1 + LLen lis key))
        with (Z.of_nat (length (elements lis key)) - 1) by lia.
      replace (Z.max 0 0) with 0 by lia. apply slice_of_all.
    + replace (Z.min (LLen lis key - 1) (LLen lis key - 1))
        with (Z.of_nat (length (elements lis key)) - 1) by lia.
      replace (Z.max 0 0) with 0 by lia. apply slice_of_all.
  - by rewrite Hall.
Qed.

Lemma LRange_whole_list_witness :
  LRange abc "k" 0 (-1) = elements abc "k" ∧
  LRange abc "k" 0 (LLen abc "k" - 1) = elements abc "k" ∧
  LLen abc "k" = Z.of_nat (length (LRange abc "k" 0 (-1))).
Proof.
  apply (LRange_whole_list abc "k"). vm_compute. discriminate.
Defined.

(** X6. [LTrim] never panics, and what it keeps under the key is what
    [LRange] with the same bounds returns beforehand. It returns [false],
    with the index unchanged, exactly when the list is empty or the
    normalised range is the whole list; no other key is touched. *)
Theorem LTrim_keeps_LRange (lis : List) (key : string) (start end_ : Z) :
  wf lis → in_range start → in_range end_ → LLen lis key <= max_int →
  ∃ lis' changed,
    LTrim lis key start end_ = Ok (lis', changed) ∧
    elements lis' key = LRange lis key start end_ ∧
    (changed = false → lis' = lis) ∧
    (changed = false ↔
     LLen lis key = 0 ∨
     (norm_start (LLen lis key) start = 0 ∧
      norm_end (LLen lis key) end_ = LLen lis key - 1)) ∧
    (∀ k, k ≠ key → record lis' !! k = record lis !! k).
Proof.
  intros Hwf Hs He Hmax. rewrite LRange_slice by done.
  unfold LLen, elements in *. unfold LTrim.
  destruct (at_key lis key) as [item|] eqn:Hitem.
  2:{ exists lis, false. rewrite Hitem, slice_of_nil.
      split_and!; try done. split; [by left|done]. }
  pose proof (wf_at_key _ _ _ Hwf Hitem) as Hl.
  pose proof (Len_values item) as Hvals.
  destruct (Z.leb_spec (clist.Len item) 0) as [Hz|Hpos].
  { exists lis, false. rewrite Hitem. split_and!; try done.
    - rewrite slice_of_empty; [|right; pose proof (norm_start_bounds
                                    (clist.Len item) start); lia].
      destruct (clist.values item); [done|simpl in Hvals; lia].
    - split; [left; unfold clist.Len in *; lia|done]. }
  rewrite handleIndex_norm by (try done; lia).
  pose proof (norm_start_bounds (clist.Len item) start) as Hs0.
  pose proof (norm_end_bounds (clist.Len item) end_) as He0.
  set (s := norm_start (clist.Len item) start) in *.
  set (e := norm_end (clist.Len item) end_) in *.
  assert (sub (clist.Len item) 1 = clist.Len item - 1) as ->.
  { unfold sub.
    by rewrite wrap_small by (unfold in_range, min_int, max_int in *; lia). }
  destruct (Z.leb_spec s 0) as [Hsle|Hsgt];
    destruct (Z.geb_spec e (clist.Len item - 1)) as [Hege|Helt];
    cbn [andb].
  { exists lis, false. rewrite Hitem. split_and!; try done.
    - replace s with 0 by lia.
      replace e with (Z.of_nat (length (clist.values item)) - 1) by lia.
      by rewrite slice_of_all.
    - split; [right; lia|done]. }
  all: destruct (Z.gtb_spec s e) as [Hgt|Hle];
    destruct (Z.geb_spec s (clist.Len item)) as [Hge|Hlt]; cbn [orb].
  all: try (exists (set_key lis key None), true; rewrite at_key_set_key;
            split_and!;
            [ done
            | rewrite slice_of_empty; [done|lia]
            | done
            | split; [done|intros [?|[? ?]]; lia]
            | intros k Hne; by apply record_set_key_ne ]).
  all: destruct (trim_rebuild_spec item s e) as (l1 & Hr1 & Hv1 & Hw1);
    [done|lia|lia|];
    destruct (trim_in_place_spec item s e) as (l2 & Hr2 & Hv2 & Hw2);
    [done|lia|lia|];
    rewrite !(index_absolute lis key item) by (try done; lia);
    cbn [mbind result_bind];
    destruct (add (sub e s) 1 <? shr1 (clist.Len item));
    [ rewrite Hr1; exists (set_key lis key (Some l1)), true
    | rewrite Hr2; exists (set_key lis key (Some l2)), true ];
    cbn [mbind result_bind]; rewrite at_key_set_key;
    (split_and!;
     [ done | done | done
     | split; [done|intros [?|[? ?]]; lia]
     | intros k Hne; by apply record_set_key_ne ]).
Qed.

Lemma LTrim_keeps_LRange_witness :
  ∃ lis' changed,
    LTrim abc "k" (-2) 7 = Ok (lis', changed) ∧
    elements lis' "k" = LRange abc "k" (-2) 7 ∧
    (changed = false ↔
     LLen abc "k" = 0 ∨
     (norm_start (LLen abc "k") (-2) = 0 ∧
      norm_end (LLen abc "k") 7 = LLen abc "k" - 1)).
Proof.
  destruct (LTrim_keeps_LRange abc "k" (-2) 7)
    as (lis' & changed & Htrim & Hel & _ & Hiff & _).
  - apply (bool_decide_unpack _). vm_compute. exact I.
  - vm_compute. split; discriminate.
  - vm_compute. split; discriminate.
  - vm_compute. discriminate.
  - by exists lis', changed.
Defined.

(** ** Byte-slice equality *)

(** X7. [sliceOfByteIsEqual] holds exactly when the two slices have the
    same bytes: it is reflexive, symmetric and transitive, and a [nil]
    slice equals an empty one. *)
Theorem sliceOfByteIsEqual_equivalence :
  (∀ a b, sliceOfByteIsEqual a b = true ↔ data a = data b) ∧
  sliceOfByteIsEqual nil_bytes (mk_bytes []) = true ∧
  (∀ a, sliceOfByteIsEqual a a = true) ∧
  (∀ a b, sliceOfByteIsEqual a b = sliceOfByteIsEqual b a) ∧
  (∀ a b c, sliceOfByteIsEqual a b = true → sliceOfByteIsEqual b c = true →
            sliceOfByteIsEqual a c = true).
Proof.
  split_and!.
  - apply sliceOfByteIsEqual_spec.
  - reflexivity.
  - intros a. by apply sliceOfByteIsEqual_spec.
  - intros a b.
    destruct (sliceOfByteIsEqual a b) eqn:Hab,
             (sliceOfByteIsEqual b a) eqn:Hba; try done.
    + apply sliceOfByteIsEqual_spec in Hab. symmetry in Hab.
      apply sliceOfByteIsEqual_spec in Hab. congruence.
    + apply sliceOfByteIsEqual_spec in Hba. symmetry in Hba.
      apply sliceOfByteIsEqual_spec in Hba. congruence.
  - intros a b c Hab%sliceOfByteIsEqual_spec Hbc%sliceOfByteIsEqual_spec.
    apply sliceOfByteIsEqual_spec. congruence.
Qed.

(** ** Keys without elements *)

(** X8. On a key whose logical list is empty (a missing key, a [nil] entry
    or an empty list) every reading and removing operation returns its
    empty result, without a panic and without changing the index: length 0,
    empty range, [nil] from [LIndex], [LPop] and [RPop], 0 from [LRem], -1
    from [LInsert], [false] from [LSet] and [LTrim]. *)
Theorem empty_list_operations (lis : List) (key : string)
    (start end_ idx count : Z) (val pivot : ByteSlice)
    (option : InsertOption) :
  elements lis key = [] →
  LLen lis key = 0 ∧
  LRange lis key start end_ = [] ∧
  LIndex lis key idx = Ok nil_bytes ∧
  LPop lis key = Ok (lis, nil_bytes) ∧
  RPop lis key = Ok (lis, nil_bytes) ∧
  LRem lis key val count = (lis, 0) ∧
  LInsert lis key option pivot val = Ok (lis, -1) ∧
  LSet lis key idx val = Ok (lis, false) ∧
  LTrim lis key start end_ = Ok (lis, false).
Proof.
  intros Hel. unfold elements in Hel.
  unfold LLen, LRange, LIndex, LPop, RPop, pop, LRem, LInsert, find, LSet,
    LTrim, index, validIndex.
  destruct (at_key lis key) as [item|] eqn:Hitem; [|by split_and!].
  apply fmap_nil_inv in Hel. unfold clist.Len. rewrite Hel.
  cbn [length Z.of_nat Z.leb Z.gtb Z.compare negb reverse].
  split_and!; try done.
  assert (∀ ele limit, scan_limit val limit [] ele = ele) as Hscan by done.
  change (reverse []) with (@nil clist.Element).
  cbn [scan_all]. rewrite !Hscan.
  destruct (count =? 0), (count >? 0), (count <? 0);
    cbn [fold_left length Z.of_nat]; by rewrite set_key_same.
Qed.

Lemma empty_list_operations_witness :
  LLen emptied "k" = 0 ∧
  LRange emptied "k" 0 (-1) = [] ∧
  LIndex emptied "k" 0 = Ok nil_bytes ∧
  LPop emptied "k" = Ok (emptied, nil_bytes) ∧
  RPop emptied "k" = Ok (emptied, nil_bytes) ∧
  LRem emptied "k" (bytes_of_string "a") 0 = (emptied, 0) ∧
  LInsert emptied "k" Before (bytes_of_string "a") (bytes_of_string "a")
  = Ok (emptied, -1) ∧
  LSet emptied "k" 0 (bytes_of_string "a") = Ok (emptied, false) ∧
  LTrim emptied "k" 0 (-1) = Ok (emptied, false).
Proof.
  apply (empty_list_operations emptied "k" 0 (-1) 0 0
           (bytes_of_string "a") (bytes_of_string "a") Before).
  vm_compute. reflexivity.
Defined.

(** ** Other keys are never touched *)

Lemma frame_pop (front : bool) (lis lis' : List) key v k :
  k ≠ key → pop front lis key = Ok (lis', v) →
  record lis' !! k = record lis !! k.
Proof.
  intros Hne. unfold pop.
  destruct (at_key lis key) as [item|]; [|by intros [= <- _]].
  destruct (clist.Len item >? 0); [|by intros [= <- _]].
  destruct (if front then clist.Front item else clist.Back item) as [e|];
    [|done].
  simpl. intros [= <- _]. by apply record_set_key_ne.
Qed.

Lemma frame_LRem (lis : List) key val count k :
  k ≠ key → record (LRem lis key val count).1 !! k = record lis !! k.
Proof.
  intros Hne. unfold LRem. destruct (at_key lis key); [|done].
  cbn [fst]. by apply record_set_key_ne.
Qed.

Lemma frame_LInsert (lis lis' : List) key option pivot val n k :
  k ≠ key → LInsert lis key option pivot val = Ok (lis', n) →
  record lis' !! k = record lis !! k.
Proof.
  intros Hne. unfold LInsert.
  destruct (find lis key pivot); [|by intros [= <- _]].
  destruct (at_key lis key); [|done].
  simpl. intros [= <- _]. by apply record_set_key_ne.
Qed.

Lemma frame_LSet (lis lis' : List) key idx val ok k :
  k ≠ key → LSet lis key idx val = Ok (lis', ok) →
  record lis' !! k = record lis !! k.
Proof.
  intros Hne. unfold LSet.
  destruct (index lis key idx) as [[e|]|]; simpl; [|by intros [= <- _]|done].
  destruct (at_key lis key); [|done].
  simpl. intros [= <- _]. by apply record_set_key_ne.
Qed.

Lemma frame_LTrim (lis lis' : List) key start end_ changed k :
  k ≠ key → LTrim lis key start end_ = Ok (lis', changed) →
  record lis' !! k = record lis !! k.
Proof.
  intros Hne. unfold LTrim.
  destruct (at_key lis key) as [item|]; [|by intros [= <- _]].
  destruct (clist.Len item <=? 0); [by intros [= <- _]|].
  destruct (handleIndex (clist.Len item) start end_) as [s e].
  destruct ((s <=? 0) && (e >=? sub (clist.Len item) 1));
    [by intros [= <- _]|].
  destruct ((s >? e) || (s >=? clist.Len item)).
  { intros [= <- _]. by apply record_set_key_ne. }
  destruct (index lis key s) as [startEle|]; [|done].
  destruct (index lis key e) as [endEle|]; [|done].
  cbn [mbind result_bind].
  destruct (add (sub e s) 1 <? shr1 (clist.Len item)).
  - destruct (trim_rebuild item startEle endEle); [|done].
    cbn [mbind result_bind]. intros [= <- _]. by apply record_set_key_ne.
  - destruct (trim_in_place item startEle endEle); [|done].
    cbn [mbind result_bind]. intros [= <- _]. by apply record_set_key_ne.
Qed.

Lemma frame_push (front : bool) (lis : List) key val k :
  k ≠ key → record (push front lis key val).1 !! k = record lis !! k.
Proof.
  intros Hne. unfold push. cbn [fst]. rewrite record_set_key_ne by done.
  destruct (at_key lis key); [done|]. by apply record_set_key_ne.
Qed.

(** X9. No operation on one key changes the map entry of another key:
    pushes, pops, [LRem], [LInsert], [LSet], [LTrim] and [LClear] on [key]
    leave the entry of every [k ≠ key] as it was, and with it the logical
    list, the length and the existence of [k]. *)
Theorem other_keys_untouched (lis : List) (key k : string) :
  k ≠ key →
  (∀ lis',
     (∃ front val, lis' = (push front lis key val).1) ∨
     (∃ front v, pop front lis key = Ok (lis', v)) ∨
     (∃ val count, lis' = (LRem lis key val count).1) ∨
     (∃ option pivot val n, LInsert lis key option pivot val = Ok (lis', n)) ∨
     (∃ idx val ok, LSet lis key idx val = Ok (lis', ok)) ∨
     (∃ start end_ changed, LTrim lis key start end_ = Ok (lis', changed)) ∨
     lis' = LClear lis key →
     record lis' !! k = record lis !! k ∧
     elements lis' k = elements lis k ∧
     LLen lis' k = LLen lis k ∧
     LKeyExists lis' k = LKeyExists lis k).
Proof.
  intros Hne lis' Hop.
  assert (record lis' !! k = record lis !! k) as Hrec.
  { destruct Hop as [(front & val & ->)|[(front & v & Hop)|[(val & count & ->)|
      [(option & pivot & val & n & Hop)|[(idx & val & ok & Hop)|
      [(start & end_ & changed & Hop)| ->]]]]]].
    - by apply frame_push.
    - by eapply frame_pop.
    - by apply frame_LRem.
    - by eapply frame_LInsert.
    - by eapply frame_LSet.
    - by eapply frame_LTrim.
    - unfold LClear. simpl. by apply lookup_delete_ne. }
  split_and!; [done|by apply elements_record_ne| |].
  - by rewrite !LLen_elements, (elements_record_ne lis lis' k).
  - unfold LKeyExists. by rewrite Hrec.
Qed.

Lemma other_keys_untouched_witness :
  ∃ lis', LTrim two_keys "k" 1 1 = Ok (lis', true) ∧
          elements lis' "j" = elements two_keys "j" ∧
          LLen lis' "j" = LLen two_keys "j".
Proof.
  assert (∃ lis', LTrim two_keys "k" 1 1 = Ok (lis', true)) as [lis' Htrim].
  { eexists. vm_compute. reflexivity. }
  destruct (other_keys_untouched two_keys "k" "j") with (lis' := lis')
    as (_ & Hel & Hlen & _).
  - discriminate.
  - do 5 right. left. by exists 1, 1, true.
  - by exists lis'.
Defined.

(** ** Clearing a key *)

Lemma elements_push (front : bool) (lis : List) (key : string)
    (val : list ByteSlice) :
  elements (push front lis key val).1 key
  = (if front then reverse val ++ elements lis key
     else elements lis key ++ val).
Proof.
  unfold push, elements. cbn [fst]. rewrite at_key_set_key.
  destruct front; [rewrite values_fold_PushFront
                  |rewrite values_fold_PushBack];
    by destruct (at_key lis key).
Qed.

(** X10. [LClear] deletes the entry of the key: the key no longer exists,
    its list is empty, and a push then starts a list that holds the pushed
    values only. Clearing twice is the same as clearing once, and clearing
    a key that does not exist changes nothing. *)
Theorem LClear_forgets_key (lis : List) (key : string) :
  LKeyExists (LClear lis key) key = false ∧
  elements (LClear lis key) key = [] ∧
  LLen (LClear lis key) key = 0 ∧
  (∀ val, elements (RPush (LClear lis key) key val).1 key = val) ∧
  (∀ val, elements (LPush (LClear lis key) key val).1 key = reverse val) ∧
  LClear (LClear lis key) key = LClear lis key ∧
  (LKeyExists lis key = false → LClear lis key = lis).
Proof.
  assert (at_key (LClear lis key) key = None) as Hnone.
  { unfold at_key, LClear. simpl. by rewrite lookup_delete_eq. }
  assert (elements (LClear lis key) key = []) as Hel.
  { unfold elements. by rewrite Hnone. }
  split_and!.
  - apply LKeyExists_LClear.
  - exact Hel.
  - unfold LLen. by rewrite Hnone.
  - intros val. unfold RPush. by rewrite elements_push, Hel.
  - intros val. unfold LPush. by rewrite elements_push, Hel, app_nil_r.
  - unfold LClear. simpl. f_equal. apply delete_id, lookup_delete_eq.
  - intros Hex. unfold LClear. destruct lis as [r]. simpl. f_equal.
    apply delete_id. unfold LKeyExists in Hex. simpl in Hex.
    apply bool_decide_eq_false in Hex.
    destruct (r !! key) eqn:E; [|done]. exfalso. apply Hex. by eexists.
Qed.

(** ** What the dump iterator visits *)

Lemma visit_all_app {H : Type} (fn : Entry → H → H * option error)
    (r1 r2 : list Entry) (h : H) :
  visit_all fn (r1 ++ r2) h
  = (let '(h', err) := visit_all fn r1 h in
     if err is Some _ then (h', err) else visit_all fn r2 h').
Proof.
  revert h. induction r1 as [|r r1 IH]; intros h; simpl; [done|].
  destruct (fn r h) as [h' [err|]]; [done|]. apply IH.
Qed.

Lemma dump_list_visit {H : Type} (fn : Entry → H → H * option error)
    (key : string) (ps : list clist.Element) (h : H) :
  dump_list fn (bytes_of_string key) ps h
  = visit_all fn ((λ v, NewEntryNoExtra (bytes_of_string key) v 1 1)
                    <$> (clist.Value <$> ps)) h.
Proof.
  revert h. induction ps as [|p ps IH]; intros h; simpl; [done|].
  destruct (fn _ h) as [h' [err|]]; [done|]. apply IH.
Qed.

Lemma dump_entries_visit {H : Type} (fn : Entry → H → H * option error)
    (entries : list (string * option clist.List)) (h : H) :
  Forall (λ kl, is_Some kl.2) entries →
  dump_entries fn entries h = Ok (visit_all fn (records_of entries) h).
Proof.
  revert h. induction entries as [|[k l] entries IH]; intros h Hsome; [done|].
  inversion Hsome as [|? ? [item Hl] Hsome']; subst. simpl in Hl. subst l.
  cbn [dump_entries deref mbind result_bind].
  unfold records_of. rewrite bind_cons. fold (records_of entries).
  cbn [fst snd]. rewrite visit_all_app, dump_list_visit.
  unfold clist.values.
  destruct (visit_all fn _ h) as [h' [err|]]; [done|]. by apply IH.
Qed.

Lemma bytes_of_string_inj (k k' : string) :
  bytes_of_string k = bytes_of_string k' → k = k'.
Proof.
  intros Heq. rewrite <- (string_of_bytes_of_string k),
                <- (string_of_bytes_of_string k'). by rewrite Heq.
Qed.

Lemma records_of_key (entries : list (string * option clist.List))
    (key : string) :
  NoDup entries.*1 →
  EntryValue <$> filter (λ r, string_of_bytes (Key r) = key)
                        (records_of entries)
  = elements (mkIndex (list_to_map entries)) key.
Proof.
  induction entries as [|[k l] entries IH]; intros Hnd.
  - unfold elements, at_key. simpl. by rewrite lookup_empty.
  - rewrite fmap_cons in Hnd. apply NoDup_cons in Hnd as [Hk Hnd].
    unfold records_of. rewrite bind_cons. fold (records_of entries).
    cbn [fst snd]. rewrite filter_app, fmap_app, IH by done.
    unfold elements, at_key. cbn [record]. rewrite list_to_map_cons.
    destruct (decide (k = key)) as [->|Hne].
    + rewrite lookup_insert_eq, not_elem_of_list_to_map_1 by done.
      cbn [default from_option id]. rewrite app_nil_r.
      destruct l as [l|]; [|done].
      rewrite filter_all.
      * rewrite <- list_fmap_compose. apply list_eq. intros i.
        rewrite list_lookup_fmap. by destruct (clist.values l !! i).
      * intros r [v [-> _]]%list_elem_of_fmap. simpl.
        apply string_of_bytes_of_string.
    + rewrite lookup_insert_ne by done.
      rewrite filter_none; [done|].
      destruct l as [l|]; [|by intros ? ?%elem_of_nil].
      intros r [v [-> _]]%list_elem_of_fmap. simpl.
      by rewrite string_of_bytes_of_string.
Qed.

(** X11. On an index without [nil] entries [DumpIterate] does not panic.
    It calls the callback on one record per element, key by key in some
    order of the keys and head to tail within a key (the values of the
    records of a key are its logical list), each record tagged (1, 1). It
    stops at the first record on which the callback fails and returns that
    error; without a failure it returns no error. *)
Theorem DumpIterate_visits {H : Type} (lis : List)
    (fn : Entry → H → H * option error) (h : H)
    (out : result (H * option error)) :
  no_nil_entry lis → DumpIterate lis fn h out →
  ∃ entries,
    entries ≡ₚ map_to_list (record lis) ∧
    out = Ok (visit_all fn (records_of entries) h) ∧
    (∀ key, EntryValue <$> filter (λ r, string_of_bytes (Key r) = key)
                                  (records_of entries)
            = elements lis key) ∧
    Forall (λ r, Type_ r = 1 ∧ Mark r = 1) (records_of entries) ∧
    (∀ pre r post h1 h2 err,
       records_of entries = pre ++ r :: post →
       visit_all fn pre h = (h1, None) → fn r h1 = (h2, Some err) →
       out = Ok (h2, Some err)).
Proof.
  intros Hnil (entries & Hperm & <-). exists entries.
  assert (Forall (λ kl : string * option clist.List, is_Some kl.2) entries)
    as Hsome.
  { rewrite Hperm. apply map_Forall_to_list in Hnil.
    eapply Forall_impl; [exact Hnil|]. by intros [k l]. }
  assert (NoDup entries.*1) as Hnd.
  { rewrite Hperm. apply NoDup_fst_map_to_list. }
  split_and!.
  - done.
  - by apply dump_entries_visit.
  - intros key. rewrite records_of_key by done.
    rewrite (list_to_map_proper entries (map_to_list (record lis)))
      by done.
    rewrite list_to_map_to_list. by destruct lis.
  - apply Forall_forall. intros r Hr. unfold records_of in Hr.
    apply list_elem_of_bind in Hr as ([k l] & Hr & _). simpl in Hr.
    destruct l as [l|]; [|by apply elem_of_nil in Hr].
    by apply list_elem_of_fmap in Hr as [v [-> _]].
  - intros pre r post h1 h2 err Hrecs Hpre Hr.
    rewrite dump_entries_visit, Hrecs, visit_all_app, Hpre by done.
    simpl. by rewrite Hr.
Qed.

Lemma DumpIterate_visits_witness :
  ∃ entries,
    entries ≡ₚ map_to_list (record abc) ∧
    Ok (2%nat, Some "stop"%string)
    = Ok (visit_all stop_at_b (records_of entries) 0%nat) ∧
    (∀ key, EntryValue <$> filter (λ r, string_of_bytes (Key r) = key)
                                  (records_of entries)
            = elements abc key).
Proof.
  destruct (DumpIterate_visits abc stop_at_b 0%nat
              (Ok (2%nat, Some "stop"%string)))
    as (entries & Hperm & Hout & Hkeys & _).
  - apply (bool_decide_unpack _). vm_compute. exact I.
  - exists (map_to_list (record abc)). split; [done|].
    vm_compute. reflexivity.
  - by exists entries.
Defined.

Lemma DumpIterate_replay_witness :
  (∃ out, DumpIterate abc replay New out) ∧
  (∀ out, DumpIterate abc replay New out →
          ∃ lis', out = Ok (lis', None) ∧
                  ∀ key, elements lis' key = elements abc key).
Proof.
  apply (DumpIterate_replay abc).
  apply (bool_decide_unpack _). vm_compute. exact I.
Defined.

Lemma LRem_spec_witness :
  (LRem abc "k" (bytes_of_string "b") (-2)).2 = 1 ∧
  elements (LRem abc "k" (bytes_of_string "b") (-2)).1 "k"
  = [bytes_of_string "a"; bytes_of_string "c"].
Proof.
  destruct (LRem_spec abc "k" (bytes_of_string "b") (-2))
    as (Hn & Hel & _).
  - apply (bool_decide_unpack _). vm_compute. exact I.
  - vm_compute. split; discriminate.
  - discriminate.
  - split; [exact Hn|exact Hel].
Defined.

(** ** No panic on the indexes the operations build *)

Lemma index_returns (lis : List) (key : string) (idx : Z) :
  wf lis → in_range idx → LLen lis key <= max_int →
  ∃ p, index lis key idx = Ok p ∧
       (is_Some p → is_Some (at_key lis key)).
Proof.
  intros Hwf Hr Hmax. unfold LLen in Hmax.
  destruct (at_key lis key) as [item|] eqn:Hitem.
  - destruct (decide (0 <= (if idx <? 0 then idx + clist.Len item else idx)
                      < clist.Len item)) as [Hin|Hout].
    + eexists. split; [by apply (index_valid lis key item)|by eexists].
    + exists None. split; [by apply (index_outside lis key item)|].
      by intros [? ?].
  - exists None. split; [by apply index_no_list|by intros [? ?]].
Qed.

Lemma pop_returns (front : bool) (lis : List) (key : string) :
  ∃ r, pop front lis key = Ok r.
Proof.
  unfold pop. destruct (at_key lis key) as [item|]; [|by eexists].
  unfold clist.Len, clist.Front, clist.Back.
  destruct (clist.cells item) as [|c cs] eqn:Hcells; [by eexists|].
  rewrite (proj2 (Z.gtb_lt _ _)) by (simpl; lia).
  assert (∃ e, (if front then head (c :: cs) else last (c :: cs)) = Some e)
    as [e ->].
  { destruct front; [by eexists|].
    destruct (last (c :: cs)) eqn:Hlast; [by eexists|].
    by apply last_None in Hlast. }
  by eexists.
Qed.

Lemma LTrim_returns (lis : List) (key : string) (start end_ : Z) :
  wf lis → in_range start → in_range end_ → LLen lis key <= max_int →
  ∃ r, LTrim lis key start end_ = Ok r.
Proof.
  intros Hwf Hs He Hmax. unfold LLen in Hmax. unfold LTrim.
  destruct (at_key lis key) as [item|] eqn:Hitem; [|by eexists].
  pose proof (wf_at_key _ _ _ Hwf Hitem) as Hl.
  destruct (Z.leb_spec (clist.Len item) 0) as [Hz|Hpos]; [by eexists|].
  rewrite handleIndex_norm by (try done; lia).
  pose proof (norm_start_bounds (clist.Len item) start) as Hs0.
  pose proof (norm_end_bounds (clist.Len item) end_) as He0.
  set (s := norm_start (clist.Len item) start) in *.
  set (e := norm_end (clist.Len item) end_) in *.
  destruct ((s <=? 0) && (e >=? sub (clist.Len item) 1)); [by eexists|].
  destruct (Z.gtb_spec s e) as [Hgt|Hle];
    destruct (Z.geb_spec s (clist.Len item)) as [Hge|Hlt]; cbn [orb];
    try by eexists.
  destruct (trim_rebuild_spec item s e) as (l1 & Hr1 & _); [done|lia|lia|].
  destruct (trim_in_place_spec item s e) as (l2 & Hr2 & _); [done|lia|lia|].
  rewrite !(index_absolute lis key item) by (try done; lia).
  cbn [mbind result_bind].
  destruct (add (sub e s) 1 <? shr1 (clist.Len item));
    [rewrite Hr1|rewrite Hr2]; by eexists.
Qed.

(** X12. On every index that the operations build from [New], with lists
    whose length fits an [int], no operation on a key panics: [LIndex],
    [LSet], [LInsert], [LTrim], [LPop] and [RPop] return a result for every
    argument. (The remaining operations, but for [DumpIterate], dereference
    no unchecked pointer.) *)
Theorem reachable_never_panics (lis : List) (key : string)
    (start end_ idx : Z) (val pivot : ByteSlice) (option : InsertOption) :
  reachable lis → LLen lis key <= max_int →
  in_range start → in_range end_ → in_range idx →
  (∃ x, LIndex lis key idx = Ok x) ∧
  (∃ r, LSet lis key idx val = Ok r) ∧
  (∃ r, LInsert lis key option pivot val = Ok r) ∧
  (∃ r, LTrim lis key start end_ = Ok r) ∧
  (∃ r, LPop lis key = Ok r) ∧
  (∃ r, RPop lis key = Ok r).
Proof.
  intros Hreach Hmax Hs He Hi. pose proof (reachable_wf lis Hreach) as Hwf.
  destruct (index_returns lis key idx Hwf Hi Hmax) as (p & Hp & Hlist).
  split_and!.
  - unfold LIndex. rewrite Hp. by eexists.
  - unfold LSet. rewrite Hp. cbn [mbind result_bind].
    destruct p as [e|]; [|by eexists].
    destruct Hlist as [item ->]; [by eexists|]. by eexists.
  - unfold LInsert. destruct (find lis key pivot) as [e|] eqn:Hfind;
      [|by eexists].
    destruct (find_elem lis key pivot e Hfind) as (item & -> & _).
    by eexists.
  - by apply LTrim_returns.
  - apply pop_returns.
  - apply pop_returns.
Qed.

Lemma reachable_never_panics_witness :
  (∃ x, LIndex abc "k" 9 = Ok x) ∧
  (∃ r, LSet abc "k" 9 nil_bytes = Ok r) ∧
  (∃ r, LInsert abc "k" After nil_bytes nil_bytes = Ok r) ∧
  (∃ r, LTrim abc "k" (-9) 9 = Ok r) ∧
  (∃ r, LPop abc "k" = Ok r) ∧
  (∃ r, RPop abc "k" = Ok r).
Proof.
  apply (reachable_never_panics abc "k" (-9) 9 9).
  - apply (reachable_push false New). apply reachable_New.
  - vm_compute. discriminate.
  - vm_compute. split; discriminate.
  - vm_compute. split; discriminate.
  - vm_compute. split; discriminate.
Defined.
